(** * ts-websocket: a shallow embedding of the connection controller

    The development follows the TypeScript sources:
    - [src/controllers/WebSocketController.ts]: upgrade gate, per-connection
      message listener, broadcast fan-out, shutdown sweep;
    - [src/services/AuthService.ts], [src/services/LoggerService.ts];
    - [src/api/WebSocketManager.ts]: the public start/stop wiring;
    - [src/utils/Config.ts], [interfaces/IMessage.ts], [interfaces/IConfig.ts].

    The JavaScript runtime and the npm packages the controller calls
    ([JSON], [URLSearchParams], [ws], [jsonwebtoken]) are modelled in the
    first modules, each at the level of detail the controller observes:
    - JavaScript is single-threaded: a listener runs to completion, and the
      world changes only through the events of [Event];
    - a hook or handler sees the message it is given and nothing else; it
      may throw any value;
    - the [ws] server tracks its clients (the default of the package) and
      hands over sockets that are open; a write on a socket that is not open
      is dropped;
    - [jsonwebtoken] is an interface with its documented contract, the clock
      being an argument; a reference implementation shows the contract can
      be met and serves the concrete runs;
    - a frame is valid UTF-8 (the [ws] package refuses any other) and
      strings are carried as their UTF-8 text; JSON numbers are doubles;
    - the port is a whole number, and free when the server listens on it. *)

From Stdlib Require Import ZArith Ascii String SpecFloat.
From stdpp Require Import base option list sets strings pretty.

#[local] Set Warnings "-register-all,-clear-no-such-hyp".
Local Open Scope string_scope.
Local Open Scope list_scope.

(** The double-quote character, and string literals written with single
    quotes standing for double quotes: [dq "{'a':1}"] is the text
    [{ "a" : 1 }] without the blanks. *)
Definition dquote : ascii := ascii_of_nat 34.

Fixpoint dq (s : string) : string :=
  match s with
  | EmptyString => EmptyString
  | String c rest => String (if Ascii.eqb c "'" then dquote else c) (dq rest)
  end.

(** ** Exceptions of the JavaScript runtime

    A computation either returns or throws.  What the runtime and the
    packages throw ([JSON.parse], a strict-mode assignment, [jsonwebtoken],
    [server.listen]) is an [Error] object with a [name] and a [message]. *)

Record JsError := mkError { error_name : string; error_message : string }.

Inductive Completion (E A : Type) : Type :=
| Return (a : A)
| Throw (e : E).
Arguments Return {E A} a.
Arguments Throw {E A} e.

Abbreviation Result := (Completion JsError).

(** User code (a hook, a handler) may throw any value.  The controller
    observes a caught value through [`${(error as Error).message}`] only:
    on an [Error] that is its message; on [null] and [undefined] the
    property read throws a [TypeError]; on any other value the read and the
    conversion to a string give a text (['undefined'] for a value without
    the property) or throw in their turn (a getter, a symbol). *)
Inductive Thrown : Type :=
| thrown_error (e : JsError)
| thrown_null
| thrown_undefined
| thrown_value (message : Completion Thrown string).

Coercion thrown_error : JsError >-> Thrown.

Abbreviation Outcome := (Completion Thrown).

(** [`${(error as Error).message}`] *)
Definition message_text (error : Thrown) : Outcome string :=
  match error with
  | thrown_error e => Return (error_message e)
  | thrown_null =>
      Throw (thrown_error
               (mkError "TypeError" "Cannot read properties of null (reading 'message')"))
  | thrown_undefined =>
      Throw (thrown_error
               (mkError "TypeError" "Cannot read properties of undefined (reading 'message')"))
  | thrown_value message => message
  end.

(** ** JSON values and the [JSON] object *)

Module JS.

(** The values [JSON.parse] can produce.  A number is an IEEE 754 double
    ([spec_float] at precision 53).  A string is the UTF-8 text of the
    JavaScript string, a lone surrogate being written as the three bytes of
    its code unit.  An array may carry named properties besides its
    elements (JavaScript allows [arr.sender = x]); [JSON.stringify] ignores
    them.  Properties are kept in creation order with unique keys;
    [own_keys] gives the order in which they are enumerated. *)
Inductive JsValue : Type :=
| JNull
| JBool (b : bool)
| JNumber (value : spec_float)
| JString (s : string)
| JArray (elems : list JsValue) (props : list (string * JsValue))
| JObject (props : list (string * JsValue)).

(** [obj[k]]: the own property, [None] standing for [undefined]. *)
Fixpoint get_prop (k : string) (props : list (string * JsValue)) : option JsValue :=
  match props with
  | [] => None
  | (k', v) :: rest => if String.eqb k k' then Some v else get_prop k rest
  end.

(** [obj[k] = v]: overwrite in place when the key exists, append otherwise. *)
Fixpoint set_prop (k : string) (v : JsValue) (props : list (string * JsValue))
  : list (string * JsValue) :=
  match props with
  | [] => [(k, v)]
  | (k', v') :: rest =>
      if String.eqb k k' then (k, v) :: rest else (k', v') :: set_prop k v rest
  end.

(** Property read [value.k] on a value that is known not to be
    [null]/[undefined]; primitives have no own properties of interest. *)
Definition member (k : string) (v : JsValue) : option JsValue :=
  match v with
  | JObject props => get_prop k props
  | JArray _ props => get_prop k props
  | _ => None
  end.

(** Strict-mode property assignment [value.k = x].  The controller is an
    ES module (class bodies are strict code): assigning a property on a
    primitive or on [null] throws a [TypeError]. *)
Definition assign (k : string) (x : JsValue) (v : JsValue) : Result JsValue :=
  match v with
  | JObject props => Return (JObject (set_prop k x props))
  | JArray elems props => Return (JArray elems (set_prop k x props))
  | JNull =>
      Throw (mkError "TypeError" ("Cannot set properties of null (setting '" +:+ k +:+ "')"))
  | JBool _ | JNumber _ | JString _ =>
      Throw (mkError "TypeError" ("Cannot create property '" +:+ k +:+ "' on a primitive value"))
  end.

(** *** Numbers

    [JSON.parse] reads a literal as the double nearest to its decimal
    value, ties to even; [Number::toString] writes the shortest decimal that
    reads back as the double, the one nearest to it when there are several. *)

Fixpoint power (b : Z) (p : positive) : Z :=
  match p with
  | xH => b
  | xO p' => let r := power b p' in (r * r)%Z
  | xI p' => let r := power b p' in (b * (r * r))%Z
  end.

Definition pow10 (k : Z) : Z :=
  match k with
  | Zpos p => power 10 p
  | _ => 1%Z
  end.

(** The double nearest to [m * 2^e]. *)
Definition double_of_scaled (negative : bool) (m e : Z) : spec_float :=
  binary_normalize 53 1024 (if negative then - m else m)%Z e negative.

Definition integer (n : Z) : spec_float := double_of_scaled (n <? 0)%Z (Z.abs n) 0.

(** The double nearest to [m * 10^e10], for [m >= 0].  Beyond [10^309]
    every value overflows and below [10^-330] every value rounds to zero;
    a quotient is taken with thirteen bits more than the precision and a
    sticky last bit, which rounds as the exact value does. *)
Definition double_of_decimal (negative : bool) (m e10 : Z) : spec_float :=
  (if m =? 0 then S754_zero negative
   else if 309 <? e10 then S754_infinity negative
   else if e10 + Z.log2 m + 1 <? -330 then S754_zero negative
   else if 0 <=? e10 then double_of_scaled negative (m * pow10 e10) 0
   else
     let d := pow10 (- e10) in
     let s := Z.max 0 (Z.log2 d - Z.log2 m + 66) in
     let n := Z.shiftl m s in
     let sticky := if n mod d =? 0 then 0 else 1 in
     double_of_scaled negative (2 * (n / d) + sticky) (- s - 1))%Z.

(** [v < 10^n] for [v = N / D] *)
Definition below_pow10 (N D n : Z) : bool :=
  (if 0 <=? n then N <? D * pow10 n else N * pow10 (- n) <? D)%Z.

Fixpoint magnitude (fuel : nat) (N D n : Z) : Z :=
  match fuel with
  | O => n
  | S fuel' => if below_pow10 N D n then n else magnitude fuel' N D (n + 1)
  end.

(** The [k]-digit decimal just below [v = N / D], where [10^(n-1) <= v <
    10^n]: its digits, what is left of [v] above it, and the scale. *)
Definition scaled (N D n k : Z) : Z * Z * Z :=
  (let t := k - n in
   let num := if 0 <=? t then N * pow10 t else N in
   let den := if 0 <=? t then D else D * pow10 (- t) in
   (num / den, num mod den, den))%Z.

(** Whether the decimal [s * 10^p] reads as the double [m * 2^e]: it lies
    between the midpoints to the neighbouring doubles, the midpoints
    themselves going to the even mantissa.  Everything is counted in
    quarters of the last place; below a power of two the neighbour is half
    as far. *)
Definition rounds_to (m : positive) (e : Z) (s p : Z) : bool :=
  (let low := if Pos.eqb m 4503599627370496 && (-1074 <? e) then 4 * Zpos m - 1
              else 4 * Zpos m - 2 in
   let high := 4 * Zpos m + 2 in
   let q := 2 - e in
   let a := Z.shiftl (s * pow10 p) (Z.max 0 q) in
   let b := Z.shiftl (pow10 (- p)) (Z.max 0 (- q)) in
   if Z.even (Zpos m) then (low * b <=? a) && (a <=? high * b)
   else (low * b <? a) && (a <? high * b))%Z.

(** The digits [s] and the exponent [p] of the shortest decimal
    [s * 10^p] that reads as [m * 2^e], tried with [k], [k + 1], ... digits. *)
Fixpoint shortest (fuel : nat) (m : positive) (e : Z) (N D n k : Z) : Z * Z :=
  match fuel with
  | O => (0, 0)%Z
  | S fuel' =>
      let '(lo, rem, den) := scaled N D n k in
      let p := (n - k)%Z in
      let hi := (lo + 1)%Z in
      let lo_ok := rounds_to m e lo p in
      let hi_ok := rounds_to m e hi p in
      if lo_ok && hi_ok then
        (if (2 * rem <? den)%Z then (lo, p)
         else if (den <? 2 * rem)%Z then (hi, p)
         else if Z.even lo then (lo, p) else (hi, p))
      else if lo_ok then (lo, p)
      else if hi_ok then (hi, p)
      else shortest fuel' m e N D n (k + 1)
  end.

Fixpoint strip_zeros (fuel : nat) (s p : Z) : Z * Z :=
  match fuel with
  | O => (s, p)
  | S fuel' =>
      if (s mod 10 =? 0)%Z then strip_zeros fuel' (s / 10)%Z (p + 1)%Z else (s, p)
  end.

Fixpoint zeros (n : nat) : string :=
  match n with
  | O => EmptyString
  | S n' => String "0" (zeros n')
  end.

(** [Number::toString] of the positive double [m * 2^e]: plain digits up to
    21 places, a leading [0.] down to [10^-6], the exponent form beyond. *)
Definition positive_to_string (m : positive) (e : Z) : string :=
  let N := (if 0 <=? e then Z.shiftl (Zpos m) e else Zpos m)%Z in
  let D := (if 0 <=? e then 1 else Z.shiftl 1 (- e))%Z in
  let n0 := magnitude 8 N D ((Z.log2 N - Z.log2 D - 1) * 30103 / 100000 - 1)%Z in
  let '(s0, p0) := shortest 17 m e N D n0 1 in
  let '(s, p) := strip_zeros 17 s0 p0 in
  let ds := pretty s in
  let k := Z.of_nat (String.length ds) in
  let n := (p + k)%Z in
  if (k <=? n)%Z && (n <=? 21)%Z then ds +:+ zeros (Z.to_nat (n - k))
  else if (0 <? n)%Z && (n <=? 21)%Z then
    substring 0 (Z.to_nat n) ds +:+ "." +:+ substring (Z.to_nat n) (Z.to_nat (k - n)) ds
  else if (-6 <? n)%Z && (n <=? 0)%Z then "0." +:+ zeros (Z.to_nat (- n)) +:+ ds
  else
    let ex := (n - 1)%Z in
    let tail := "e" +:+ (if (ex <? 0)%Z then "-" else "+") +:+ pretty (Z.abs ex) in
    if (k =? 1)%Z then ds +:+ tail
    else substring 0 1 ds +:+ "." +:+ substring 1 (Z.to_nat (k - 1)) ds +:+ tail.

(** [String(x)] of a number. *)
Definition number_to_string (v : spec_float) : string :=
  match v with
  | S754_zero _ => "0"
  | S754_infinity false => "Infinity"
  | S754_infinity true => "-Infinity"
  | S754_nan => "NaN"
  | S754_finite false m e => positive_to_string m e
  | S754_finite true m e => "-" +:+ positive_to_string m e
  end.

(** [JSON.stringify(x)] of a number: what is not finite is [null]. *)
Definition number_to_json (v : spec_float) : string :=
  match v with
  | S754_infinity _ | S754_nan => "null"
  | _ => number_to_string v
  end.

(** *** The order of the keys of an object

    The own keys that are array indices (the canonical text of an integer
    below [2^32 - 1]) come first, in ascending order, then the other keys
    in the order of their creation. *)

Definition is_digit (c : ascii) : bool :=
  let n := N_of_ascii c in ((48 <=? n) && (n <=? 57))%N.

Fixpoint all_digits (s : string) : bool :=
  match s with
  | EmptyString => true
  | String c rest => is_digit c && all_digits rest
  end.

Fixpoint decimal (acc : Z) (s : string) : Z :=
  match s with
  | EmptyString => acc
  | String c rest => decimal (10 * acc + (Z.of_N (N_of_ascii c) - 48))%Z rest
  end.

Definition array_index (k : string) : option Z :=
  match k with
  | EmptyString => None
  | String "0" EmptyString => Some 0%Z
  | String "0" _ => None
  | _ =>
      if all_digits k && (String.length k <=? 10)%nat && (decimal 0 k <? 4294967295)%Z
      then Some (decimal 0 k) else None
  end.

Fixpoint insert_index {A} (n : Z) (x : A) (l : list (Z * A)) : list (Z * A) :=
  match l with
  | [] => [(n, x)]
  | (n', y) :: rest =>
      if (n <? n')%Z then (n, x) :: l else (n', y) :: insert_index n x rest
  end.

Fixpoint partition_keys {A} (props : list (string * A))
  : list (Z * (string * A)) * list (string * A) :=
  match props with
  | [] => ([], [])
  | (k, x) :: rest =>
      let '(indices, named) := partition_keys rest in
      match array_index k with
      | Some n => (insert_index n (k, x) indices, named)
      | None => (indices, (k, x) :: named)
      end
  end.

Definition own_keys {A} (props : list (string * A)) : list (string * A) :=
  let '(indices, named) := partition_keys props in (snd <$> indices) ++ named.

(** *** [JSON.stringify] *)

Definition hex_digit (n : N) : ascii :=
  match n with
  | 0 => "0" | 1 => "1" | 2 => "2" | 3 => "3" | 4 => "4" | 5 => "5" | 6 => "6"
  | 7 => "7" | 8 => "8" | 9 => "9" | 10 => "a" | 11 => "b" | 12 => "c"
  | 13 => "d" | 14 => "e" | _ => "f"
  end%N%char.

Definition escape_char (c : ascii) : string :=
  let n := N_of_ascii c in
  if (n =? 34)%N then String "\" (String dquote EmptyString)
  else if (n =? 92)%N then "\\"
  else if (n =? 8)%N then "\b"
  else if (n =? 12)%N then "\f"
  else if (n =? 10)%N then "\n"
  else if (n =? 13)%N then "\r"
  else if (n =? 9)%N then "\t"
  else if (n <? 32)%N then
    "\u00" +:+ String (hex_digit (n / 16)) (String (hex_digit (n mod 16)) EmptyString)
  else String c EmptyString.

(** The code unit of a lone surrogate, from its three bytes. *)
Definition lone_surrogate (c b1 b2 : ascii) : option N :=
  let n := N_of_ascii c in
  let n1 := N_of_ascii b1 in
  let n2 := N_of_ascii b2 in
  (if (n =? 237) && (160 <=? n1) && (n1 <=? 191) && (128 <=? n2) && (n2 <=? 191)
   then Some (53248 + (n1 - 128) * 64 + (n2 - 128))
   else None)%N.

Definition hex4 (cp : N) : string :=
  String (hex_digit (cp / 4096))
    (String (hex_digit ((cp / 256) mod 16))
       (String (hex_digit ((cp / 16) mod 16))
          (String (hex_digit (cp mod 16)) EmptyString)))%N.

(** A lone surrogate is written as its [\u] escape (well-formed
    [JSON.stringify]); every other character above the controls is written
    as it is. *)
Fixpoint escape (s : string) : string :=
  match s with
  | EmptyString => EmptyString
  | String c (String b1 (String b2 rest') as rest) =>
      match lone_surrogate c b1 b2 with
      | Some cp => "\u" +:+ hex4 cp +:+ escape rest'
      | None => escape_char c +:+ escape rest
      end
  | String c rest => escape_char c +:+ escape rest
  end.

Definition quote (s : string) : string :=
  String dquote (escape s +:+ String dquote EmptyString).

Fixpoint join (sep : string) (parts : list string) : string :=
  match parts with
  | [] => EmptyString
  | [p] => p
  | p :: rest => p +:+ sep +:+ join sep rest
  end.

Fixpoint stringify (v : JsValue) : string :=
  match v with
  | JNull => "null"
  | JBool true => "true"
  | JBool false => "false"
  | JNumber value => number_to_json value
  | JString s => quote s
  | JArray elems _ =>
      "[" +:+ join "," ((fix each (l : list JsValue) : list string :=
                           match l with
                           | [] => []
                           | x :: l' => stringify x :: each l'
                           end) elems) +:+ "]"
  | JObject props =>
      "{" +:+
      join ","
        ((fun p => quote p.1 +:+ ":" +:+ p.2) <$>
           own_keys ((fix each (l : list (string * JsValue)) : list (string * string) :=
                        match l with
                        | [] => []
                        | (k, x) :: l' => (k, stringify x) :: each l'
                        end) props)) +:+ "}"
  end.

(** *** [JSON.parse]

    A recursive-descent reader of the JSON grammar (RFC 8259).  The
    recursion on nested values is bounded by a fuel that [parse] sets from
    the length of the text. *)

Definition is_ws (c : ascii) : bool :=
  let n := N_of_ascii c in
  ((n =? 32) || (n =? 9) || (n =? 10) || (n =? 13))%N.

Fixpoint skip_ws (s : string) : string :=
  match s with
  | String c rest => if is_ws c then skip_ws rest else s
  | EmptyString => s
  end.

Fixpoint take_digits (s : string) : string * string :=
  match s with
  | String c rest =>
      if is_digit c then let '(d, r) := take_digits rest in (String c d, r)
      else (EmptyString, s)
  | EmptyString => (EmptyString, s)
  end.

Definition parse_fraction (s : string) : option (string * string) :=
  match s with
  | String "." r =>
      match take_digits r with
      | (EmptyString, _) => None
      | (d, r') => Some (d, r')
      end
  | _ => Some (EmptyString, s)
  end.

Definition parse_exponent (s : string) : option (Z * string) :=
  match s with
  | String c r =>
      if Ascii.eqb c "e" || Ascii.eqb c "E" then
        let '(negative, r1) :=
          match r with
          | String "+" r1 => (false, r1)
          | String "-" r1 => (true, r1)
          | _ => (false, r)
          end in
        match take_digits r1 with
        | (EmptyString, _) => None
        | (d, r2) => Some (if negative then (- decimal 0 d)%Z else decimal 0 d, r2)
        end
      else Some (0%Z, s)
  | EmptyString => Some (0%Z, s)
  end.

(** The digits of the integer part and of the fraction make the mantissa,
    the exponent is lowered by the length of the fraction. *)
Definition parse_number (s : string) : option (spec_float * string) :=
  let '(negative, s1) :=
    match s with
    | String "-" r => (true, r)
    | _ => (false, s)
    end in
  match take_digits s1 with
  | (EmptyString, _) => None
  | (String "0" (String _ _), _) => None
  | (int, s2) =>
      match parse_fraction s2 with
      | None => None
      | Some (frac, s3) =>
          match parse_exponent s3 with
          | None => None
          | Some (ex, s4) =>
              Some (double_of_decimal negative (decimal 0 (int +:+ frac))
                      (ex - Z.of_nat (String.length frac)), s4)
          end
      end
  end.

Definition hex_value (c : ascii) : option N :=
  let n := N_of_ascii c in
  if ((48 <=? n) && (n <=? 57))%N then Some (n - 48)%N
  else if ((97 <=? n) && (n <=? 102))%N then Some (n - 87)%N
  else if ((65 <=? n) && (n <=? 70))%N then Some (n - 55)%N
  else None.

(** UTF-8 bytes of a code point (a lone surrogate takes the three bytes of
    its code unit). *)
Definition utf8 (cp : N) : string :=
  (if cp <? 128 then String (ascii_of_N cp) EmptyString
   else if cp <? 2048 then
     String (ascii_of_N (192 + cp / 64))
       (String (ascii_of_N (128 + cp mod 64)) EmptyString)
   else if cp <? 65536 then
     String (ascii_of_N (224 + cp / 4096))
       (String (ascii_of_N (128 + (cp / 64) mod 64))
          (String (ascii_of_N (128 + cp mod 64)) EmptyString))
   else
     String (ascii_of_N (240 + cp / 262144))
       (String (ascii_of_N (128 + (cp / 4096) mod 64))
          (String (ascii_of_N (128 + (cp / 64) mod 64))
             (String (ascii_of_N (128 + cp mod 64)) EmptyString))))%N.

Definition hex4_value (h1 h2 h3 h4 : ascii) : option N :=
  match hex_value h1, hex_value h2, hex_value h3, hex_value h4 with
  | Some a, Some b, Some c, Some d => Some (((a * 16 + b) * 16 + c) * 16 + d)%N
  | _, _, _, _ => None
  end.

(** The low surrogate that an escape right after a high surrogate gives. *)
Definition low_surrogate (s : string) : option N :=
  match s with
  | String b (String "u" (String h1 (String h2 (String h3 (String h4 _))))) =>
      if (N_of_ascii b =? 92)%N then
        match hex4_value h1 h2 h3 h4 with
        | Some cp => if ((56320 <=? cp) && (cp <=? 57343))%N then Some cp else None
        | None => None
        end
      else None
  | _ => None
  end.

Definition unescape (e : ascii) : option ascii :=
  let n := N_of_ascii e in
  (if n =? 34 then Some dquote
   else if n =? 92 then Some e
   else if n =? 47 then Some e
   else if n =? 98 then Some (ascii_of_N 8)
   else if n =? 102 then Some (ascii_of_N 12)
   else if n =? 110 then Some (ascii_of_N 10)
   else if n =? 114 then Some (ascii_of_N 13)
   else if n =? 116 then Some (ascii_of_N 9)
   else None)%N.

(** The characters of a string literal, after its opening quote. *)
Fixpoint parse_string (s : string) : option (string * string) :=
  match s with
  | EmptyString => None
  | String c rest =>
      let n := N_of_ascii c in
      if (n =? 34)%N then Some (EmptyString, rest)
      else if (n =? 92)%N then
        match rest with
        | String "u" (String h1 (String h2 (String h3 (String h4 rest')))) =>
            match hex4_value h1 h2 h3 h4 with
            | Some cp =>
                match (if ((55296 <=? cp) && (cp <=? 56319))%N then low_surrogate rest'
                       else None), rest' with
                | Some low, String _ (String _ (String _ (String _ (String _
                    (String _ rest''))))) =>
                    match parse_string rest'' with
                    | Some (str, r) =>
                        Some (utf8 (65536 + (cp - 55296) * 1024 + (low - 56320))%N
                                +:+ str, r)
                    | None => None
                    end
                | _, _ =>
                    match parse_string rest' with
                    | Some (str, r) => Some (utf8 cp +:+ str, r)
                    | None => None
                    end
                end
            | None => None
            end
        | String e rest' =>
            match unescape e with
            | Some ch =>
                match parse_string rest' with
                | Some (str, r) => Some (String ch str, r)
                | None => None
                end
            | None => None
            end
        | EmptyString => None
        end
      else if (n <? 32)%N then None
      else
        match parse_string rest with
        | Some (str, r) => Some (String c str, r)
        | None => None
        end
  end.

Fixpoint parse_value (fuel : nat) (s : string) : option (JsValue * string) :=
  match fuel with
  | O => None
  | S fuel' =>
      match skip_ws s with
      | String "n" (String "u" (String "l" (String "l" rest))) => Some (JNull, rest)
      | String "t" (String "r" (String "u" (String "e" rest))) => Some (JBool true, rest)
      | String "f" (String "a" (String "l" (String "s" (String "e" rest)))) =>
          Some (JBool false, rest)
      | String "[" rest =>
          match skip_ws rest with
          | String "]" r => Some (JArray [] [], r)
          | _ => parse_elements fuel' rest []
          end
      | String "{" rest =>
          match skip_ws rest with
          | String "}" r => Some (JObject [], r)
          | _ => parse_members fuel' rest []
          end
      | String c rest =>
          if Ascii.eqb c dquote then
            match parse_string rest with
            | Some (str, r) => Some (JString str, r)
            | None => None
            end
          else
            match parse_number (String c rest) with
            | Some (value, r) => Some (JNumber value, r)
            | None => None
            end
      | EmptyString => None
      end
  end
with parse_elements (fuel : nat) (s : string) (acc : list JsValue)
  : option (JsValue * string) :=
  match fuel with
  | O => None
  | S fuel' =>
      match parse_value fuel' s with
      | Some (v, r) =>
          match skip_ws r with
          | String "," r' => parse_elements fuel' r' (acc ++ [v])
          | String "]" r' => Some (JArray (acc ++ [v]) [], r')
          | _ => None
          end
      | None => None
      end
  end
with parse_members (fuel : nat) (s : string) (acc : list (string * JsValue))
  : option (JsValue * string) :=
  match fuel with
  | O => None
  | S fuel' =>
      match skip_ws s with
      | String q r =>
          if Ascii.eqb q dquote then
            match parse_string r with
            | Some (k, r1) =>
                match skip_ws r1 with
                | String ":" r2 =>
                    match parse_value fuel' r2 with
                    | Some (v, r3) =>
                        match skip_ws r3 with
                        | String "," r4 => parse_members fuel' r4 (set_prop k v acc)
                        | String "}" r4 => Some (JObject (set_prop k v acc), r4)
                        | _ => None
                        end
                    | None => None
                    end
                | _ => None
                end
            | None => None
            end
          else None
      | EmptyString => None
      end
  end.

Definition syntax_error : JsError :=
  mkError "SyntaxError" "Unexpected token in JSON".

Definition parse (text : string) : Result JsValue :=
  match parse_value (2 * String.length text + 2) text with
  | Some (v, rest) =>
      match skip_ws rest with
      | EmptyString => Return v
      | _ => Throw syntax_error
      end
  | None => Throw syntax_error
  end.

End JS.


Import JS.

(** ** [String.prototype.split] and [URLSearchParams] *)

Module URL.

(** [s.split(sep)] for a one-character separator: the pieces between the
    separators, in order (at least one piece). *)
Fixpoint split (sep : ascii) (s : string) : list string :=
  match s with
  | EmptyString => [EmptyString]
  | String c rest =>
      if Ascii.eqb c sep then EmptyString :: split sep rest
      else
        match split sep rest with
        | p :: ps => String c p :: ps
        | [] => [String c EmptyString]
        end
  end.

Fixpoint plus_to_space (s : string) : string :=
  match s with
  | EmptyString => EmptyString
  | String c rest => String (if Ascii.eqb c "+" then " "%char else c) (plus_to_space rest)
  end.

(** Percent-decoding of the bytes of a name or value; a ['%'] that is not
    followed by two hexadecimal digits is kept.  The decoded bytes are taken
    as they are: [URLSearchParams] goes on to read them as UTF-8 and puts
    U+FFFD for a sequence that is not, which is left out here. *)
Fixpoint percent_decode (s : string) : string :=
  match s with
  | EmptyString => EmptyString
  | String c rest =>
      if Ascii.eqb c "%" then
        match rest with
        | String h1 (String h2 rest') =>
            match hex_value h1, hex_value h2 with
            | Some a, Some b => String (ascii_of_N (a * 16 + b)) (percent_decode rest')
            | _, _ => String c (percent_decode rest)
            end
        | _ => String c (percent_decode rest)
        end
      else String c (percent_decode rest)
  end.

(** One [name=value] sequence: split at the first ['='], decode both. *)
Fixpoint name_value (s : string) : string * string :=
  match s with
  | EmptyString => (EmptyString, EmptyString)
  | String c rest =>
      if Ascii.eqb c "=" then (EmptyString, rest)
      else let '(n, v) := name_value rest in (String c n, v)
  end.

Definition decode_pair (s : string) : string * string :=
  let '(n, v) := name_value s in
  (percent_decode (plus_to_space n), percent_decode (plus_to_space v)).

Definition nonempty (s : string) : bool :=
  match s with
  | EmptyString => false
  | _ => true
  end.

(** [new URLSearchParams(init)], [init] being a string or [undefined]. *)
Definition URLSearchParams (init : option string) : list (string * string) :=
  match init with
  | None => []
  | Some q =>
      let q' := match q with
                | String "?" r => r
                | _ => q
                end in
      map decode_pair (filter (fun x => Is_true (nonempty x)) (split "&" q'))
  end.

(** [params.get(name)]: the value of the first pair of that name, or [null]. *)
Fixpoint get (name : string) (params : list (string * string)) : option string :=
  match params with
  | [] => None
  | (n, v) :: rest => if String.eqb n name then Some v else get name rest
  end.

End URL.

(** ** The [jsonwebtoken] package, as an interface

    [jwt.sign({ username }, secret, { expiresIn })] and [jwt.verify(token,
    secret)].  The clock ([Date.now()] in seconds) is an explicit argument.
    The decoded payload is the object the service signs: a [username] claim
    ([None] when the claim is missing, the property read giving [undefined]),
    and the [exp] claim. *)

Record JwtPayload := mkPayload { username : option string; exp : option Z }.

Class JsonWebToken := {
  jwt_timespan : string -> option Z;
  jwt_sign : string -> string -> string -> Z -> Result string;
  jwt_verify : string -> string -> Z -> Result JwtPayload
}.

(** What the package documents and the service relies on: [sign] throws on
    an [expiresIn] that is no time span and otherwise sets [exp] to the issue
    time plus the span; a token verifies under the secret it was signed with
    as long as the clock is before [exp], and is refused with a
    [TokenExpiredError] from [exp] on. *)
Class JwtContract (J : JsonWebToken) : Prop := {
  sign_span : forall u secret e t0 tok,
    jwt_sign u secret e t0 = Return tok -> is_Some (jwt_timespan e);
  verify_fresh : forall u secret e t0 tok d t,
    jwt_sign u secret e t0 = Return tok -> jwt_timespan e = Some d ->
    (t < t0 + d)%Z ->
    jwt_verify tok secret t = Return (mkPayload (Some u) (Some (t0 + d)%Z));
  verify_expired : forall u secret e t0 tok d t,
    jwt_sign u secret e t0 = Return tok -> jwt_timespan e = Some d ->
    (t0 + d <= t)%Z ->
    exists msg, jwt_verify tok secret t = Throw (mkError "TokenExpiredError" msg)
}.

(** ** [interfaces/IMessage.ts], [utils/Config.ts] *)

(** A hook or handler [(message: IMessage<any>) => void].  It receives the
    message object itself: it may change it in place, and it may throw.  Its
    outcome is the message as it leaves it, or the value thrown. *)
Definition Callback := JsValue -> Outcome JsValue.

Module Config.

Record Hooks := mkHooks {
  beforeSend : option Callback;
  afterSend : option Callback
}.

(** [Partial<IConfig>]: every field may be missing. *)
Record Options := mkOptions {
  opt_port : option Z;
  opt_secretKey : option string;
  opt_tokenExpiry : option string;
  opt_hooks : option Hooks;
  opt_enableLogging : option bool;
  opt_onMessage : option Callback
}.

Record t := mk {
  port : Z;
  secretKey : string;
  tokenExpiry : string;
  hooks : option Hooks;
  enableLogging : option bool;
  onMessage : option Callback
}.

(** [x || dflt] on an optional number and on an optional string. *)
Definition or_number (x : option Z) (dflt : Z) : Z :=
  match x with
  | Some n => if (n =? 0)%Z then dflt else n
  | None => dflt
  end.

Definition or_string (x : option string) (dflt : string) : string :=
  match x with
  | Some EmptyString | None => dflt
  | Some s => s
  end.

(** [x ?? dflt] *)
Definition nullish {A} (x : option A) (dflt : A) : A :=
  match x with
  | Some a => a
  | None => dflt
  end.

Definition new (options : Options) : t :=
  {| port := or_number (opt_port options) 8080;
     secretKey := or_string (opt_secretKey options) "default_secret_key";
     tokenExpiry := or_string (opt_tokenExpiry options) "1h";
     hooks := opt_hooks options;
     enableLogging := Some (nullish (opt_enableLogging options) true);
     onMessage := opt_onMessage options |}.

End Config.

(** ** [interfaces/IAuthService.ts], [services/AuthService.ts] *)

Record IAuthService := {
  auth_generateToken : string -> Z -> Result string;
  auth_verifyToken : string -> Z -> option string
}.

Module AuthService.
Section AuthService.
Context {J : JsonWebToken}.
Variable config : Config.t.

Definition generateToken (username : string) (now : Z) : Result string :=
  jwt_sign username (Config.secretKey config) (Config.tokenExpiry config) now.

(** [try { return jwt.verify(token, key).username } catch { return null }];
    [None] is [null] (or the [undefined] of a payload without the claim). *)
Definition verifyToken (token : string) (now : Z) : option string :=
  match jwt_verify token (Config.secretKey config) now with
  | Return decoded => username decoded
  | Throw _ => None
  end.

Definition service : IAuthService :=
  {| auth_generateToken := generateToken; auth_verifyToken := verifyToken |}.

End AuthService.
End AuthService.

(** ** The [ws] package: sockets as the controller sees them *)

Module WS.

(** [readyState] of a server-side socket; it is [OPEN] when the
    ['connection'] listener receives it. *)
Inductive ReadyState := OPEN | CLOSING | CLOSED.

#[global] Instance ReadyState_eq_dec : EqDecision ReadyState.
Proof. solve_decision. Defined.

(** What was written to the peer: text frames and the close frame. *)
Inductive Frame :=
| Text (data : string)
| Close (code : option Z) (reason : option string).

(** [listeners] is the identity captured by the ['message'], ['close'] and
    ['error'] listeners that [onConnection] registers together, if it did. *)
Record Socket := mkSocket {
  readyState : ReadyState;
  outbox : list Frame;
  listeners : option string
}.

(** [ws.send(data)]: written when the socket is open, dropped otherwise. *)
Definition send (data : string) (s : Socket) : Socket :=
  match readyState s with
  | OPEN => mkSocket OPEN (outbox s ++ [Text data]) (listeners s)
  | _ => s
  end.

(** [ws.close(code, reason)]: an open socket sends its close frame and is
    [CLOSING] until the transport is gone; otherwise nothing happens. *)
Definition close (code : option Z) (reason : option string) (s : Socket) : Socket :=
  match readyState s with
  | OPEN => mkSocket CLOSING (outbox s ++ [Close code reason]) (listeners s)
  | _ => s
  end.

Definition on (user : string) (s : Socket) : Socket :=
  mkSocket (readyState s) (outbox s) (Some user).

Definition closed (s : Socket) : Socket :=
  mkSocket CLOSED (outbox s) (listeners s).

Inductive ServerState := RUNNING | SERVER_CLOSING | SERVER_CLOSED.

(** The [WebSocketServer] ([noServer] mode): the set of tracked sockets
    (insertion order), its state, and the callbacks waiting for its
    ['close'] event. *)
Record Server := mkServer {
  clients : list nat;
  state : ServerState;
  close_callbacks : nat
}.

End WS.

(** ** The world the controller runs in *)

(** A [WebSocket] object is named by its index in the heap of sockets. *)
Abbreviation WebSocket := nat.

(** The calls made on the collaborators, in program order. *)
Inductive Effect :=
| ws_send (ws : WebSocket) (data : string)
| ws_close (ws : WebSocket) (code : option Z) (reason : option string)
| wss_close
| server_listen (port : Z)
| server_close
| console_error (text : string)
| console_warn (text : string)
| console_log (text : string)
| call_beforeSend (message : JsValue)
| call_afterSend (message : JsValue)
| call_onMessage (message : JsValue).

(** The fields of [WebSocketController]. *)
Record Controller := mkController {
  wss : WS.Server;
  clients : list (WebSocket * string);
  beforeSend : option Callback;
  afterSend : option Callback;
  onMessage : option Callback
}.

(** The heap of socket objects (a [WebSocket] is its index), the controller,
    the HTTP server of the manager, and the trace of effects. *)
Record World := mkWorld {
  sockets : list WS.Socket;
  controller : Controller;
  listening : bool;
  trace : list Effect
}.

(** What the inversify container injects into the controller. *)
Class Container := {
  config : Config.t;
  authService : IAuthService
}.

(** *** State and exceptions *)

Definition M (A : Type) : Type := World -> Outcome A * World.

#[global] Instance M_ret : MRet M := fun A a w => (Return a, w).

#[global] Instance M_bind : MBind M := fun A B k c w =>
  match c w with
  | (Return a, w') => k a w'
  | (Throw e, w') => (Throw e, w')
  end.

Definition lift {A} (r : Outcome A) : M A := fun w => (r, w).

Definition try_catch {A} (body : M A) (handler : Thrown -> M A) : M A := fun w =>
  match body w with
  | (Return a, w') => (Return a, w')
  | (Throw e, w') => handler e w'
  end.

Definition gets {A} (f : World -> A) : M A := fun w => (Return (f w), w).

Definition modify (f : World -> World) : M unit := fun w => (Return tt, f w).

Definition emit (e : Effect) : M unit :=
  modify (fun w => mkWorld (sockets w) (controller w) (listening w) (trace w ++ [e])).

Definition set_sockets (f : list WS.Socket -> list WS.Socket) : M unit :=
  modify (fun w => mkWorld (f (sockets w)) (controller w) (listening w) (trace w)).

Definition set_controller (f : Controller -> Controller) : M unit :=
  modify (fun w => mkWorld (sockets w) (f (controller w)) (listening w) (trace w)).

Definition set_listening (b : bool) : M unit :=
  modify (fun w => mkWorld (sockets w) (controller w) b (trace w)).

Fixpoint forEach {A} (l : list A) (visit : A -> M unit) : M unit :=
  match l with
  | [] => mret tt
  | x :: rest => visit x ;; forEach rest visit
  end.

Fixpoint times (n : nat) (c : M unit) : M unit :=
  match n with
  | O => mret tt
  | S n' => c ;; times n' c
  end.

(** [Map.prototype.set] and [delete], [Set.prototype.add] and [delete], on
    insertion-ordered lists with unique keys. *)
Fixpoint map_set (k : WebSocket) (v : string) (m : list (WebSocket * string))
  : list (WebSocket * string) :=
  match m with
  | [] => [(k, v)]
  | (k', v') :: rest => if Nat.eqb k k' then (k, v) :: rest else (k', v') :: map_set k v rest
  end.

Fixpoint map_delete (k : WebSocket) (m : list (WebSocket * string))
  : list (WebSocket * string) :=
  match m with
  | [] => []
  | (k', v') :: rest =>
      if Nat.eqb k k' then map_delete k rest else (k', v') :: map_delete k rest
  end.

Fixpoint map_get (k : WebSocket) (m : list (WebSocket * string)) : option string :=
  match m with
  | [] => None
  | (k', v') :: rest => if Nat.eqb k k' then Some v' else map_get k rest
  end.

Fixpoint set_add (k : WebSocket) (s : list WebSocket) : list WebSocket :=
  match s with
  | [] => [k]
  | k' :: rest => if Nat.eqb k k' then s else k' :: set_add k rest
  end.

Fixpoint set_delete (k : WebSocket) (s : list WebSocket) : list WebSocket :=
  match s with
  | [] => []
  | k' :: rest => if Nat.eqb k k' then set_delete k rest else k' :: set_delete k rest
  end.

(** The string a template literal shows for a value ([None] is [undefined]). *)
Fixpoint to_display (v : JsValue) : string :=
  match v with
  | JNull => "null"
  | JBool true => "true"
  | JBool false => "false"
  | JNumber value => number_to_string value
  | JString s => s
  | JArray elems _ =>
      join "," ((fix each (l : list JsValue) : list string :=
                   match l with
                   | [] => []
                   | JNull :: l' => EmptyString :: each l'
                   | x :: l' => to_display x :: each l'
                   end) elems)
  | JObject _ => "[object Object]"
  end.

Definition template (v : option JsValue) : string :=
  match v with
  | None => "undefined"
  | Some x => to_display x
  end.

(** JavaScript truthiness of a string and of [string | null]. *)
Definition truthy (s : string) : bool := URL.nonempty s.

Definition truthy_opt (o : option string) : bool :=
  match o with
  | Some s => truthy s
  | None => false
  end.

(** Truthiness of an optional function. *)
Definition present {A} (o : option A) : bool :=
  match o with
  | Some _ => true
  | None => false
  end.

(** ** [services/LoggerService.ts] and [controllers/WebSocketController.ts] *)

Module WebSocketController.
Section Controller.
Context {container : Container}.

(** *** LoggerService: errors always, warnings and logs when enabled *)

Definition logging_enabled : bool :=
  Config.nullish (Config.enableLogging config) true.

Definition logger_error (message : string) : M unit :=
  emit (console_error ("[WS ERROR]: " +:+ message)).

Definition logger_warn (message : string) : M unit :=
  if logging_enabled then emit (console_warn ("[WS WARN]: " +:+ message)) else mret tt.

Definition logger_log (message : string) : M unit :=
  if logging_enabled then emit (console_log ("[WS LOG]: " +:+ message)) else mret tt.

(** *** Calls on a socket *)

Definition send (ws : WebSocket) (data : string) : M unit :=
  emit (ws_send ws data) ;;
  set_sockets (alter (WS.send data) ws).

Definition close_socket (ws : WebSocket) (code : option Z) (reason : option string)
  : M unit :=
  emit (ws_close ws code reason) ;;
  set_sockets (alter (WS.close code reason) ws).

Definition on (ws : WebSocket) (user : string) : M unit :=
  set_sockets (alter (WS.on user) ws).

Definition readyState (ws : WebSocket) : M (option WS.ReadyState) :=
  gets (fun w => WS.readyState <$> sockets w !! ws).

(** *** The constructor *)

Definition new : Controller :=
  {| wss := WS.mkServer [] WS.RUNNING 0;
     clients := [];
     beforeSend := Config.hooks config ≫= Config.beforeSend;
     afterSend := Config.hooks config ≫= Config.afterSend;
     onMessage := Config.onMessage config |}.

Definition setLifecycleHooks (beforeSend' afterSend' : option Callback)
    (c : Controller) : Controller :=
  mkController (wss c) (clients c) beforeSend' afterSend' (onMessage c).

(** *** extractToken *)

Definition extractToken (url : option string) : option string :=
  match url with
  | None => None
  | Some u =>
      if truthy u then URL.get "token" (URL.URLSearchParams (URL.split "?" u !! 1))
      else None
  end.

(** *** broadcastMessage *)

Definition broadcastMessage (message : JsValue) : M unit :=
  tracked ← gets (fun w => WS.clients (wss (controller w)));
  forEach tracked (fun client =>
    st ← readyState client;
    if decide (st = Some WS.OPEN) then send client (stringify message) else mret tt) ;;
  logger_log ("Broadcasted message from " +:+ template (member "sender" message)).

(** *** The listeners registered by onConnection *)

Definition invoke (call : JsValue -> Effect) (f : Callback) (message : JsValue)
  : M JsValue :=
  emit (call message) ;; lift (f message).

(** First [try] block: [message = JSON.parse(data); message.sender = user]. *)
Definition decode (data user : string) : Result JsValue :=
  match JS.parse data with
  | Return message => assign "sender" (JString user) message
  | Throw e => Throw e
  end.

(** Second [try] block. *)
Definition dispatch (message : JsValue) : M unit :=
  handler ← gets (fun w => onMessage (controller w));
  match handler with
  | Some h => invoke call_onMessage h message ;; mret tt
  | None =>
      pre ← gets (fun w => beforeSend (controller w));
      message1 ← match pre with
                 | Some h => invoke call_beforeSend h message
                 | None => mret message
                 end;
      broadcastMessage message1 ;;
      post ← gets (fun w => afterSend (controller w));
      match post with
      | Some h => invoke call_afterSend h message1 ;; mret tt
      | None => mret tt
      end
  end.

Definition error_payload (text : string) : string :=
  stringify (JObject [("error", JString text)]).

Definition reject (ws : WebSocket) (error : JsError) : M unit :=
  logger_error ("Error parsing message: " +:+ error_message error) ;;
  send ws (error_payload "Invalid JSON format") ;;
  close_socket ws None None.

Definition process (ws : WebSocket) (message : JsValue) : M unit :=
  try_catch (dispatch message) (fun error =>
    text ← lift (message_text error);
    logger_error ("Error processing message: " +:+ text) ;;
    send ws (error_payload "Internal server error")).

(** [ws.on('message', data => ...)]: the first [try] block, whose [catch]
    returns, then the second. *)
Definition message_listener (ws : WebSocket) (user : string) (data : string) : M unit :=
  match decode data user with
  | Throw error => reject ws error
  | Return message => process ws message
  end.

Definition close_listener (ws : WebSocket) (user : string) : M unit :=
  set_controller (fun c =>
    mkController (wss c) (map_delete ws (clients c)) (beforeSend c) (afterSend c)
      (onMessage c)) ;;
  logger_log ("User disconnected: " +:+ user).

Definition error_listener (error : JsError) : M unit :=
  logger_error ("WebSocket error: " +:+ error_message error).

(** *** onConnection

    [token ? verifyToken(token) : null], [token && !username], and
    [username || 'Anonymous'] with the truthiness of strings. *)

Definition onConnection (ws : WebSocket) (url : option string) (now : Z) : M unit :=
  let token := extractToken url in
  let username := if truthy_opt token
                  then token ≫= (fun t => auth_verifyToken authService t now)
                  else None in
  if truthy_opt token && negb (truthy_opt username) then
    send ws (error_payload "Authentication Failed") ;;
    close_socket ws (Some 1008%Z) (Some "Authentication Failed") ;;
    logger_warn "WebSocket connection closed due to failed authentication."
  else
    let user := if truthy_opt username then default "Anonymous" username
                else "Anonymous" in
    set_controller (fun c =>
      mkController (wss c) (map_set ws user (clients c)) (beforeSend c) (afterSend c)
        (onMessage c)) ;;
    logger_log ("User connected: " +:+ user) ;;
    on ws user.

(** *** The WebSocketServer of the [ws] package *)

Definition set_wss (f : WS.Server -> WS.Server) : M unit :=
  set_controller (fun c =>
    mkController (f (wss c)) (clients c) (beforeSend c) (afterSend c) (onMessage c)).

(** ['close'] of the server: every waiting callback runs; the callback the
    controller passes logs a warning. *)
Definition emitClose : M unit :=
  n ← gets (fun w => WS.close_callbacks (wss (controller w)));
  set_wss (fun s => WS.mkServer (WS.clients s) WS.SERVER_CLOSED 0) ;;
  times n (logger_warn "WebSocket server closed.").

(** The [process.nextTick] that follows a handler: the server emits
    ['close'] once it is closing and tracks no socket any more. *)
Definition nextTick : M unit :=
  s ← gets (fun w => wss (controller w));
  match WS.state s, WS.clients s, WS.close_callbacks s with
  | WS.SERVER_CLOSING, [], _ => emitClose
  | WS.SERVER_CLOSED, _, S _ => emitClose
  | _, _, _ => mret tt
  end.

(** [wss.close(cb)] *)
Definition close_server : M unit :=
  emit wss_close ;;
  set_wss (fun s =>
    WS.mkServer (WS.clients s)
      match WS.state s with
      | WS.RUNNING => WS.SERVER_CLOSING
      | st => st
      end
      (S (WS.close_callbacks s))).

(** [wss.handleUpgrade]: the handshake is refused once the server is
    closing; otherwise the new socket is tracked and ['connection'] is
    emitted. *)
Definition handleUpgrade (url : option string) (now : Z) : M unit :=
  s ← gets (fun w => wss (controller w));
  match WS.state s with
  | WS.RUNNING =>
      ws ← gets (fun w => length (sockets w));
      set_sockets (fun l => l ++ [WS.mkSocket WS.OPEN [] None]) ;;
      set_wss (fun s => WS.mkServer (set_add ws (WS.clients s)) (WS.state s)
                          (WS.close_callbacks s)) ;;
      onConnection ws url now
  | _ => mret tt
  end.

(** The ['close'] event of a socket: the server forgets it, then the
    listener of the controller runs if there is one. *)
Definition socket_closed (ws : WebSocket) : M unit :=
  set_sockets (alter WS.closed ws) ;;
  set_wss (fun s => WS.mkServer (set_delete ws (WS.clients s)) (WS.state s)
                      (WS.close_callbacks s)) ;;
  bound ← gets (fun w => sockets w !! ws ≫= WS.listeners);
  match bound with
  | Some user => close_listener ws user
  | None => mret tt
  end.

(** *** close *)

Definition close : M unit :=
  registered ← gets (fun w => clients (controller w));
  forEach registered (fun '(ws, username) =>
    close_socket ws (Some 1001%Z) (Some "Server shutting down")) ;;
  close_server.

End Controller.
End WebSocketController.

(** ** [api/WebSocketManager.ts], [config/inversify.config.ts] *)

Module WebSocketManager.

(** [IWebSocketManagerOptions] (the transport options and the route
    callback play no part in the controller and are left out). *)
Record Options := mkOptions {
  port : option Z;
  secretKey : option string;
  tokenExpiry : option string;
  enableLogging : option bool;
  beforeSend : option Callback;
  afterSend : option Callback;
  onMessage : option Callback
}.

Definition createContainer {J : JsonWebToken} (configOptions : Config.Options)
  : Container :=
  let cfg := Config.new configOptions in
  {| config := cfg; authService := AuthService.service cfg |}.

(** The object literal the constructor passes to [createContainer]. *)
Definition configOptions (options : Options) : Config.Options :=
  {| Config.opt_port := Some (Config.or_number (port options) 8080);
     Config.opt_secretKey := Some (Config.or_string (secretKey options) "default_secret");
     Config.opt_tokenExpiry := Some (Config.or_string (tokenExpiry options) "1h");
     Config.opt_hooks := Some (Config.mkHooks (beforeSend options) (afterSend options));
     Config.opt_enableLogging := Some (Config.nullish (enableLogging options) true);
     Config.opt_onMessage := onMessage options |}.

Definition container {J : JsonWebToken} (options : Options) : Container :=
  createContainer (configOptions options).

(** The constructor: the controller comes out of the container; the hooks
    are set once more when one of them is given. *)
Definition new {J : JsonWebToken} (options : Options) : World :=
  let c := @WebSocketController.new (container options) in
  let c' := if present (beforeSend options) || present (afterSend options)
            then WebSocketController.setLifecycleHooks
                   (beforeSend options) (afterSend options) c
            else c in
  mkWorld [] c' false [].

Section Manager.
Context {container : Container}.

(** [server.listen(port)] of Node throws, before anything else happens,
    when the server is listening already and when the port is not in
    0..65535. *)
Definition valid_port (p : Z) : bool := (0 <=? p)%Z && (p <=? 65535)%Z.

Definition already_listening : JsError :=
  mkError "Error" "Listen method has been called more than once without closing.".

Definition bad_port (p : Z) : JsError :=
  mkError "RangeError"
    ("options.port should be >= 0 and < 65536. Received type number (" +:+ pretty p +:+ ").").

Definition start : M unit :=
  busy ← gets (fun w => listening w);
  if busy : bool then lift (A := unit) (Throw (thrown_error already_listening))
  else if valid_port (Config.port config) then
    emit (server_listen (Config.port config)) ;;
    set_listening true ;;
    WebSocketController.logger_log
      ("Server is running on port " +:+ pretty (Config.port config))
  else lift (A := unit) (Throw (thrown_error (bad_port (Config.port config)))).

(** [stop]; the callback of [server.close] runs when the last transport
    is gone and is not part of the model. *)
Definition stop : M unit :=
  WebSocketController.close ;;
  emit server_close ;;
  set_listening false.

Definition generateToken (username : string) (now : Z) : Result string :=
  auth_generateToken authService username now.

End Manager.

End WebSocketManager.

(** ** Events

    What reaches the controller from outside: an upgrade request whose
    handshake succeeds, a frame on a socket, the close frame of a peer, the
    ['close'] and ['error'] events of a socket, and the calls of the public
    interface. *)

Inductive Event :=
| Upgrade (url : option string) (now : Z)
| Message (ws : WebSocket) (data : string)
| PeerClose (ws : WebSocket) (code : option Z)
| Closed (ws : WebSocket)
| SocketError (ws : WebSocket) (error : JsError)
| SetLifecycleHooks (beforeSend afterSend : option Callback)
| Start
| Stop.

Section Events.
Context {container : Container}.

(** A handler runs to completion, then the pending tick.  An exception
    that leaves a handler goes to its caller ([start]) or to the host (a
    listener); the world is the one the handler left. *)
Definition run (handler : M unit) (w : World) : World :=
  (WebSocketController.nextTick (handler w).2).2.

Definition deliver (e : Event) (w : World) : World :=
  match e with
  | Upgrade url now =>
      if listening w then run (WebSocketController.handleUpgrade url now) w else w
  | Message ws data =>
      match sockets w !! ws with
      | Some (WS.mkSocket WS.OPEN _ (Some user))
      | Some (WS.mkSocket WS.CLOSING _ (Some user)) =>
          run (WebSocketController.message_listener ws user data) w
      | _ => w
      end
  | PeerClose ws code => run (set_sockets (alter (WS.close code None) ws)) w
  | Closed ws =>
      match WS.readyState <$> sockets w !! ws with
      | Some WS.OPEN | Some WS.CLOSING => run (WebSocketController.socket_closed ws) w
      | _ => w
      end
  | SocketError ws error =>
      match sockets w !! ws with
      | Some (WS.mkSocket WS.OPEN _ (Some _))
      | Some (WS.mkSocket WS.CLOSING _ (Some _)) =>
          run (WebSocketController.error_listener error) w
      | _ => w
      end
  | SetLifecycleHooks beforeSend' afterSend' =>
      run (set_controller (WebSocketController.setLifecycleHooks beforeSend' afterSend')) w
  | Start => run WebSocketManager.start w
  | Stop => run WebSocketManager.stop w
  end.

Definition init : World := mkWorld [] WebSocketController.new false [].

Inductive reachable : World -> Prop :=
| reachable_init : reachable init
| reachable_step e w : reachable w -> reachable (deliver e w).

Definition deliver_all (events : list Event) (w : World) : World :=
  foldl (fun w e => deliver e w) w events.

End Events.

(** ** A reference implementation of the token interface

    Tokens are written in a plain self-delimiting format (the expiry, the
    key and the identity, lengths in unary).  It stands in for
    [jsonwebtoken] wherever a concrete run is needed, and shows that
    [JwtContract] can be met; it makes no claim of unforgeability. *)

Module ReferenceJwt.

Fixpoint enc_nat (n : nat) (rest : string) : string :=
  match n with
  | O => String "." rest
  | S n' => String "1" (enc_nat n' rest)
  end.

Fixpoint dec_nat (s : string) : option (nat * string) :=
  match s with
  | String "." rest => Some (O, rest)
  | String "1" rest =>
      match dec_nat rest with
      | Some (n, r) => Some (S n, r)
      | None => None
      end
  | _ => None
  end.

Definition enc_Z (z : Z) (rest : string) : string :=
  String (if (z <? 0)%Z then "n" else "p")%char (enc_nat (Z.abs_nat z) rest).

Definition dec_Z (s : string) : option (Z * string) :=
  match s with
  | String "p" rest =>
      match dec_nat rest with
      | Some (n, r) => Some (Z.of_nat n, r)
      | None => None
      end
  | String "n" rest =>
      match dec_nat rest with
      | Some (n, r) => Some (- Z.of_nat n, r)%Z
      | None => None
      end
  | _ => None
  end.

Fixpoint split_at (n : nat) (s : string) : option (string * string) :=
  match n with
  | O => Some (EmptyString, s)
  | S n' =>
      match s with
      | String c rest =>
          match split_at n' rest with
          | Some (a, b) => Some (String c a, b)
          | None => None
          end
      | EmptyString => None
      end
  end.

Fixpoint digits_value (acc : Z) (s : string) : Z :=
  match s with
  | EmptyString => acc
  | String c rest => digits_value (10 * acc + (Z.of_N (N_of_ascii c) - 48)) rest
  end.

(** Time spans in the style of the [ms] package: a number and a unit;
    without a unit the number counts milliseconds.  Only whole numbers and
    the short units are read, a part of what [ms] accepts. *)
Definition timespan (e : string) : option Z :=
  match take_digits e with
  | (EmptyString, _) => None
  | (d, unit) =>
      let n := digits_value 0 d in
      if String.eqb unit EmptyString || String.eqb unit "ms" then Some (n / 1000)%Z
      else if String.eqb unit "s" then Some n
      else if String.eqb unit "m" then Some (60 * n)%Z
      else if String.eqb unit "h" then Some (3600 * n)%Z
      else if String.eqb unit "d" then Some (86400 * n)%Z
      else None
  end.

Definition sign (u secret e : string) (t0 : Z) : Result string :=
  match timespan e with
  | None => Throw (mkError "Error" "expiresIn should be a number of seconds or string representing a timespan")
  | Some d => Return (enc_Z (t0 + d) (enc_nat (String.length secret) (secret +:+ u)))
  end.

Definition malformed : JsError := mkError "JsonWebTokenError" "jwt malformed".

Definition verify (token secret : string) (t : Z) : Result JwtPayload :=
  match dec_Z token with
  | None => Throw malformed
  | Some (expiry, r) =>
      match dec_nat r with
      | None => Throw malformed
      | Some (n, r') =>
          match split_at n r' with
          | None => Throw malformed
          | Some (key, u) =>
              if negb (String.eqb key secret)
              then Throw (mkError "JsonWebTokenError" "invalid signature")
              else if (expiry <=? t)%Z
              then Throw (mkError "TokenExpiredError" "jwt expired")
              else Return (mkPayload (Some u) (Some expiry))
          end
      end
  end.

#[global] Instance jwt : JsonWebToken :=
  {| jwt_timespan := timespan; jwt_sign := sign; jwt_verify := verify |}.

End ReferenceJwt.

(** ** Invariants of the reachable worlds *)

Section Invariants.
Context {container : Container}.

Definition tracked (w : World) : list WebSocket := WS.clients (wss (controller w)).

Definition registry (w : World) : list (WebSocket * string) := clients (controller w).

(** [client.readyState === WebSocket.OPEN] *)
Definition ready (w : World) (ws : WebSocket) : bool :=
  bool_decide (WS.readyState <$> sockets w !! ws = Some WS.OPEN).

Definition live (s : WS.Socket) : Prop := WS.readyState s ≠ WS.CLOSED.

(** The server tracks exactly the sockets whose transport is not gone;
    a registered socket is live and its listeners carry the registered
    identity; an open socket is registered. *)
Record WF (w : World) : Prop := {
  wf_nodup : NoDup (tracked w);
  wf_tracked : forall ws,
    ws ∈ tracked w <-> exists s, sockets w !! ws = Some s /\ live s;
  wf_registered : forall ws user,
    map_get ws (registry w) = Some user ->
    exists s, sockets w !! ws = Some s /\ live s /\ WS.listeners s = Some user;
  wf_open : forall ws s,
    sockets w !! ws = Some s -> WS.readyState s = WS.OPEN ->
    is_Some (map_get ws (registry w))
}.

(** A socket after some sends: only its outbox grew. *)
Definition extends (s s' : WS.Socket) : Prop :=
  WS.readyState s' = WS.readyState s /\ WS.listeners s' = WS.listeners s /\
  exists more, WS.outbox s' = WS.outbox s ++ more.

Definition is_close (e : Effect) : bool :=
  match e with
  | ws_close _ _ _ | wss_close | server_close => true
  | _ => false
  end.

(** A step that only sends and logs. *)
Definition sends_only (w w' : World) : Prop :=
  controller w' = controller w /\ listening w' = listening w /\
  Forall2 extends (sockets w) (sockets w') /\
  exists t, trace w' = trace w ++ t /\ forallb (fun e => negb (is_close e)) t = true.

(** A socket that kept its listeners and did not reopen. *)
Definition ages (s s' : WS.Socket) : Prop :=
  WS.listeners s' = WS.listeners s /\
  (WS.readyState s' = WS.readyState s \/
   (WS.readyState s = WS.OPEN /\ WS.readyState s' = WS.CLOSING)).

(** A step that neither adds nor removes a socket or a registration. *)
Definition evolves (w w' : World) : Prop :=
  registry w' = registry w /\ tracked w' = tracked w /\
  Forall2 ages (sockets w) (sockets w').

Definition preserves (R : World -> World -> Prop) {A} (c : M A) : Prop :=
  forall w, R w (c w).2.

End Invariants.

(** ** Vocabulary of the statements *)

(** A step that touches the server object and the log only. *)
Definition server_only (w w' : World) : Prop :=
  sockets w' = sockets w /\ listening w' = listening w /\
  registry w' = registry w /\ tracked w' = tracked w /\
  beforeSend (controller w') = beforeSend (controller w) /\
  afterSend (controller w') = afterSend (controller w) /\
  onMessage (controller w') = onMessage (controller w).

(** The world with more effects on its trace. *)
Definition add_trace (t : list Effect) (w : World) : World :=
  mkWorld (sockets w) (controller w) (listening w) (trace w ++ t).

(** The outcome of the pre-hook on a message: the message as the
    broadcast sees it. *)
Definition pre_outcome (w : World) (message : JsValue) : Outcome JsValue :=
  match beforeSend (controller w) with
  | Some h => h message
  | None => Return message
  end.

(** The call of a hook on the trace, if the hook is set. *)
Definition calls (call : JsValue -> Effect) (hook : option Callback)
    (message : JsValue) : list Effect :=
  if present hook then [call message] else [].

(** The completion of a call whose result is dropped. *)
Definition finish (r : Outcome JsValue) : Outcome unit :=
  match r with
  | Return _ => Return tt
  | Throw e => Throw e
  end.

(** The values on which [message.sender = user] throws. *)
Definition primitive (v : JsValue) : bool :=
  match v with
  | JArray _ _ | JObject _ => false
  | _ => true
  end.

(** Whether a character occurs in a string. *)
Fixpoint occurs (c : ascii) (s : string) : bool :=
  match s with
  | EmptyString => false
  | String c' rest => Ascii.eqb c' c || occurs c rest
  end.

(** A value that a query string carries as it is: none of the characters
    that [split('?')] and [URLSearchParams] cut at or decode. *)
Definition query_safe (t : string) : bool :=
  negb (occurs "?" t) && negb (occurs "&" t) && negb (occurs "+" t) && negb (occurs "%" t).

(** The order of the states of a socket and of the server. *)
Definition ready_rank (r : WS.ReadyState) : nat :=
  match r with
  | WS.OPEN => 0
  | WS.CLOSING => 1
  | WS.CLOSED => 2
  end.

Definition server_rank (r : WS.ServerState) : nat :=
  match r with
  | WS.RUNNING => 0
  | WS.SERVER_CLOSING => 1
  | WS.SERVER_CLOSED => 2
  end.

(** A socket later in its life: its state did not go back, what it was sent
    is still there, and nothing was added unless it was open. *)
Definition grows (s s' : WS.Socket) : Prop :=
  ready_rank (WS.readyState s) <= ready_rank (WS.readyState s') /\
  (exists more, WS.outbox s' = WS.outbox s ++ more) /\
  (WS.readyState s ≠ WS.OPEN -> WS.outbox s' = WS.outbox s).

(** A server on which no ['close'] is pending: the tick after a handler
    has nothing to do. *)
Definition settled (s : WS.Server) : bool :=
  match WS.state s, WS.clients s, WS.close_callbacks s with
  | WS.SERVER_CLOSING, [], _ => false
  | WS.SERVER_CLOSED, _, S _ => false
  | _, _, _ => true
  end.

(** The console lines that [LoggerService] prints only when logging is
    enabled. *)
Definition is_info (e : Effect) : bool :=
  match e with
  | console_warn _ | console_log _ => true
  | _ => false
  end.

(** What every step keeps: the sockets that exist stay and grow; a socket
    that exists is not given a registration it did not have; the server does
    not go back to running, and once it left that state no socket is added;
    the trace is extended, without warnings or logs when logging is off. *)
Definition progress {container : Container} (w w' : World) : Prop :=
  (forall i s, sockets w !! i = Some s ->
     exists s', sockets w' !! i = Some s' /\ grows s s') /\
  (forall ws u, ws < length (sockets w) ->
     map_get ws (registry w') = Some u -> map_get ws (registry w) = Some u) /\
  server_rank (WS.state (wss (controller w)))
    <= server_rank (WS.state (wss (controller w'))) /\
  (WS.state (wss (controller w)) ≠ WS.RUNNING ->
   length (sockets w') = length (sockets w)) /\
  exists t, trace w' = trace w ++ t /\
            (WebSocketController.logging_enabled = false ->
             forallb (fun e => negb (is_info e)) t = true).

(** ** Concrete runs *)

Definition reference_config : Config.t :=
  Config.new (Config.mkOptions None (Some "k") (Some "1m") None None None).

Definition alice_token : string :=
  Eval vm_compute in
    match AuthService.generateToken (J := ReferenceJwt.jwt) reference_config "alice" 3 with
    | Return tok => tok
    | Throw _ => EmptyString
    end.


Definition demo_options : WebSocketManager.Options :=
  WebSocketManager.mkOptions (Some 4000%Z) (Some "k") (Some "1m") None None None None.

Definition demo : Container :=
  WebSocketManager.container (J := ReferenceJwt.jwt) demo_options.

(** A pre-hook that refuses every message. *)
Definition veto : Callback := fun _ => Throw (thrown_error (mkError "Error" "veto")).

Definition veto_options : WebSocketManager.Options :=
  WebSocketManager.mkOptions (Some 4000%Z) (Some "k") (Some "1m") None (Some veto) None None.

Definition vetoing : Container :=
  WebSocketManager.container (J := ReferenceJwt.jwt) veto_options.

(** A pre-hook that rewrites the content of the message it is given. *)
Definition censor : Callback := fun message =>
  match message with
  | JObject props => Return (JObject (set_prop "content" (JString "redacted") props))
  | _ => Return message
  end.

Definition censor_options : WebSocketManager.Options :=
  WebSocketManager.mkOptions (Some 4000%Z) (Some "k") (Some "1m") None (Some censor) None
    None.

Definition censoring : Container :=
  WebSocketManager.container (J := ReferenceJwt.jwt) censor_options.

(** Two connections: socket 0 is alice (token issued at time 3, verified at
    time 5), socket 1 is anonymous. *)
Definition connect_two : list Event :=
  [Start; Upgrade (Some ("/?token=" +:+ alice_token)) 5; Upgrade (Some "/") 6].

Definition started : World := deliver (container := demo) Start (init (container := demo)).

Definition two_peers : World :=
  deliver_all (container := demo) connect_two (init (container := demo)).

Definition two_peers_veto : World :=
  deliver_all (container := vetoing) connect_two (init (container := vetoing)).

Definition two_peers_censor : World :=
  deliver_all (container := censoring) connect_two (init (container := censoring)).

Definition three_anonymous : World :=
  deliver_all (container := demo)
    [Start; Upgrade (Some "/") 1; Upgrade (Some "/") 2; Upgrade None 3]
    (init (container := demo)).

Definition forged : string := dq "{'sender':'forged','content':'hi'}".

(** A token the service issues for the empty name. *)
Definition nameless_token : string :=
  Eval vm_compute in
    match AuthService.generateToken (J := ReferenceJwt.jwt) reference_config EmptyString 3 with
    | Return tok => tok
    | Throw _ => EmptyString
    end.

(** A pre-hook that throws [null]. *)
Definition throw_null : Callback := fun _ => Throw thrown_null.

Definition null_options : WebSocketManager.Options :=
  WebSocketManager.mkOptions (Some 4000%Z) (Some "k") (Some "1m") None (Some throw_null)
    None None.

Definition nulling : Container :=
  WebSocketManager.container (J := ReferenceJwt.jwt) null_options.

Definition two_peers_null : World :=
  deliver_all (container := nulling) connect_two (init (container := nulling)).

(** A server whose custom handler refuses every message. *)
Definition strict_options : WebSocketManager.Options :=
  WebSocketManager.mkOptions (Some 4000%Z) (Some "k") (Some "1m") None (Some censor) None
    (Some veto).

Definition strict : Container :=
  WebSocketManager.container (J := ReferenceJwt.jwt) strict_options.

Definition two_peers_strict : World :=
  deliver_all (container := strict) connect_two (init (container := strict)).

(** Options whose token expiry is no time span. *)
Definition careless_options : WebSocketManager.Options :=
  WebSocketManager.mkOptions (Some 4000%Z) (Some "k") (Some "soon") None None None None.

(** The same server with logging switched off. *)
Definition muted_options : WebSocketManager.Options :=
  WebSocketManager.mkOptions (Some 4000%Z) (Some "k") (Some "1m") (Some false) None None
    None.

Definition muted : Container :=
  WebSocketManager.container (J := ReferenceJwt.jwt) muted_options.

(** A run with a rejected upgrade, a broadcast, a frame that is no JSON, a
    shutdown and the end of a transport. *)
Definition busy_run : list Event :=
  [Upgrade (Some "/?token=garbage") 7; Message 0 forged; Message 1 "not json"; Stop;
   Closed 1].

(** * Properties *)

(** ** Maps, sets and properties *)

Lemma map_get_set (k k' : WebSocket) v m :
  map_get k' (map_set k v m) = if decide (k' = k) then Some v else map_get k' m.
Proof.
  induction m as [|[k0 v0] m IH]; simpl.
  - destruct (Nat.eqb_spec k' k); case_decide; congruence.
  - destruct (Nat.eqb_spec k k0) as [->|Hne]; simpl.
    + destruct (Nat.eqb_spec k' k0); case_decide; congruence.
    + destruct (Nat.eqb_spec k' k0) as [->|]; [|exact IH].
      case_decide; congruence.
Qed.

Lemma map_get_delete (k k' : WebSocket) m :
  map_get k' (map_delete k m) = if decide (k' = k) then None else map_get k' m.
Proof.
  induction m as [|[k0 v0] m IH]; simpl.
  - by case_decide.
  - destruct (Nat.eqb_spec k k0) as [->|Hne]; simpl.
    + rewrite IH. destruct (Nat.eqb_spec k' k0); case_decide; congruence.
    + destruct (Nat.eqb_spec k' k0) as [->|]; [|exact IH].
      case_decide; congruence.
Qed.

Lemma map_get_None_nil m : (forall k, map_get k m = None) -> m = [].
Proof.
  destruct m as [|[k v] m]; [done|]. intros H. specialize (H k).
  simpl in H. by rewrite Nat.eqb_refl in H.
Qed.

Lemma map_get_elem_of k v m : map_get k m = Some v -> (k, v) ∈ m.
Proof.
  induction m as [|[k0 v0] m IH]; simpl; [done|].
  destruct (Nat.eqb_spec k k0) as [->|]; intros H.
  - injection H as ->. left.
  - right. auto.
Qed.

Lemma elem_of_map_get k v m : (k, v) ∈ m -> is_Some (map_get k m).
Proof.
  induction m as [|[k0 v0] m IH]; simpl.
  - by intros ?%elem_of_nil.
  - intros [Heq|Hin]%elem_of_cons.
    + injection Heq as -> ->. rewrite Nat.eqb_refl. eauto.
    + destruct (Nat.eqb k k0); eauto.
Qed.

Lemma elem_of_set_add k x s : x ∈ set_add k s <-> x = k \/ x ∈ s.
Proof.
  induction s as [|k0 s IH]; simpl.
  - rewrite list_elem_of_singleton. set_solver.
  - destruct (Nat.eqb_spec k k0) as [->|]; [set_solver|].
    rewrite !elem_of_cons, IH. tauto.
Qed.

Lemma NoDup_set_add k s : NoDup s -> NoDup (set_add k s).
Proof.
  induction 1 as [|k0 s Hnot Hnd IH]; simpl.
  - apply NoDup_singleton.
  - destruct (Nat.eqb_spec k k0) as [->|Hne]; [by constructor|].
    constructor; [|done]. rewrite elem_of_set_add. intros [?|?]; congruence.
Qed.

Lemma elem_of_set_delete k x s : x ∈ set_delete k s <-> x ≠ k /\ x ∈ s.
Proof.
  induction s as [|k0 s IH]; simpl.
  - set_solver.
  - destruct (Nat.eqb_spec k k0) as [->|Hne].
    + rewrite IH, elem_of_cons. naive_solver.
    + rewrite !elem_of_cons, IH. naive_solver.
Qed.

Lemma NoDup_set_delete k s : NoDup s -> NoDup (set_delete k s).
Proof.
  induction 1 as [|k0 s Hnot Hnd IH]; simpl; [constructor|].
  destruct (Nat.eqb_spec k k0); [done|].
  constructor; [|done]. rewrite elem_of_set_delete. tauto.
Qed.

Lemma get_set_prop k k' v props :
  get_prop k' (set_prop k v props) = if String.eqb k' k then Some v else get_prop k' props.
Proof.
  induction props as [|[k0 v0] props IH]; simpl.
  - by destruct (String.eqb_spec k' k).
  - destruct (String.eqb_spec k k0) as [->|Hne]; simpl.
    + destruct (String.eqb_spec k' k0); [done|done].
    + destruct (String.eqb_spec k' k0) as [->|]; [|exact IH].
      destruct (String.eqb_spec k0 k); congruence.
Qed.

(** ** The reference tokens meet the contract *)

Lemma dec_enc_nat n rest : ReferenceJwt.dec_nat (ReferenceJwt.enc_nat n rest) = Some (n, rest).
Proof. induction n as [|n IH]; simpl; [done|]. by rewrite IH. Qed.

Lemma dec_enc_Z z rest : ReferenceJwt.dec_Z (ReferenceJwt.enc_Z z rest) = Some (z, rest).
Proof.
  unfold ReferenceJwt.enc_Z, ReferenceJwt.dec_Z.
  destruct (Z.ltb_spec z 0); rewrite dec_enc_nat; do 2 f_equal; lia.
Qed.

Lemma split_at_app a b :
  ReferenceJwt.split_at (String.length a) (a +:+ b) = Some (a, b).
Proof. induction a as [|c a IH]; simpl; [done|]. by rewrite IH. Qed.

Lemma reference_verify_sign u secret e t0 tok d t :
  ReferenceJwt.sign u secret e t0 = Return tok -> ReferenceJwt.timespan e = Some d ->
  ReferenceJwt.verify tok secret t =
    if (t0 + d <=? t)%Z then Throw (mkError "TokenExpiredError" "jwt expired")
    else Return (mkPayload (Some u) (Some (t0 + d)%Z)).
Proof.
  unfold ReferenceJwt.sign, ReferenceJwt.verify. intros Hs Hd. rewrite Hd in Hs.
  injection Hs as <-. rewrite dec_enc_Z, dec_enc_nat, split_at_app.
  by rewrite String.eqb_refl.
Qed.

Lemma reference_contract : JwtContract ReferenceJwt.jwt.
Proof.
  split; simpl.
  - intros u secret e t0 tok. unfold ReferenceJwt.sign.
    destruct (ReferenceJwt.timespan e); [eauto|done].
  - intros u secret e t0 tok d t Hs Hd Hlt.
    rewrite (reference_verify_sign _ _ _ _ _ _ _ Hs Hd).
    destruct (Z.leb_spec (t0 + d) t); [lia|done].
  - intros u secret e t0 tok d t Hs Hd Hle.
    rewrite (reference_verify_sign _ _ _ _ _ _ _ Hs Hd).
    destruct (Z.leb_spec (t0 + d) t); [eauto|lia].
Qed.

(** ** Token Authenticator *)

(** C8. A token issued for [u] verifies to [u] at every time before its
    expiry and to invalid ([None], the [null] of the source) at every time
    from the expiry on; and [verifyToken] is total: whenever
    [jwt.verify] throws (bad signature, malformed token, expired token)
    it returns invalid.  It is a function of the token and the clock alone
    (no state is read or written). *)
Theorem verify_issued_token {J : JsonWebToken} (C : JwtContract J) (cfg : Config.t) (u : string)
    (t0 : Z) (tok : string) :
  AuthService.generateToken cfg u t0 = Return tok ->
  (exists expiry : Z,
     (forall t, (t < expiry)%Z -> AuthService.verifyToken cfg tok t = Some u) /\
     (forall t, (expiry <= t)%Z -> AuthService.verifyToken cfg tok t = None)) /\
  (forall token t e,
     jwt_verify token (Config.secretKey cfg) t = Throw e ->
     AuthService.verifyToken cfg token t = None).
Proof.
  unfold AuthService.generateToken, AuthService.verifyToken. intros Hsign. split.
  - destruct (sign_span _ _ _ _ _ Hsign) as [d Hd]. exists (t0 + d)%Z. split; intros t Ht.
    + by rewrite (verify_fresh _ _ _ _ _ _ t Hsign Hd Ht).
    + destruct (verify_expired _ _ _ _ _ _ t Hsign Hd Ht) as [msg ->]. done.
  - intros token t e ->. done.
Qed.

Lemma verify_issued_token_witness :
  (exists expiry : Z,
     (forall t, (t < expiry)%Z ->
        AuthService.verifyToken (J := ReferenceJwt.jwt) reference_config alice_token t
        = Some "alice") /\
     (forall t, (expiry <= t)%Z ->
        AuthService.verifyToken (J := ReferenceJwt.jwt) reference_config alice_token t
        = None)) /\
  (forall token t e,
     jwt_verify token (Config.secretKey reference_config) t = Throw e ->
     AuthService.verifyToken (J := ReferenceJwt.jwt) reference_config token t = None).
Proof.
  apply (verify_issued_token reference_contract reference_config "alice" 3).
  reflexivity.
Defined.

(** ** Lifecycle hooks *)

(** C10. [setLifecycleHooks] overwrites both hooks with its arguments, so
    an omitted argument clears the hook, also one that came from the
    configuration at construction; the custom handler, the registry, the
    server, and the rest of the world are left as they were. *)
Theorem setLifecycleHooks_overwrites {container : Container}
    (before after : option Callback) (c : Controller) (w : World) :
  let c' := WebSocketController.setLifecycleHooks before after c in
  (beforeSend c' = before /\ afterSend c' = after) /\
  (onMessage c' = onMessage c /\ clients c' = clients c /\ wss c' = wss c) /\
  beforeSend (WebSocketController.setLifecycleHooks None after WebSocketController.new)
    = None /\
  afterSend (WebSocketController.setLifecycleHooks before None WebSocketController.new)
    = None /\
  set_controller (WebSocketController.setLifecycleHooks before after) w
    = (Return tt,
       mkWorld (sockets w) (WebSocketController.setLifecycleHooks before after (controller w))
         (listening w) (trace w)).
Proof. by destruct c. Qed.

(** ** Steps that only send, steps that only age sockets *)

#[local] Instance extends_preorder : PreOrder extends.
Proof.
  split.
  - intros s. repeat split. exists []. by rewrite app_nil_r.
  - intros s1 s2 s3 (Hr1 & Hl1 & m1 & Ho1) (Hr2 & Hl2 & m2 & Ho2).
    repeat split; [congruence..|]. exists (m1 ++ m2). by rewrite Ho2, Ho1, app_assoc.
Qed.

#[local] Instance ages_preorder : PreOrder ages.
Proof.
  split.
  - intros s. split; auto.
  - intros s1 s2 s3 [Hl1 Hr1] [Hl2 Hr2]. split; [congruence|].
    destruct Hr1 as [Hr1|[Hr1 Hr1']], Hr2 as [Hr2|[Hr2 Hr2']]; [left|right..]; split_and?; congruence.
Qed.

#[local] Instance sends_only_preorder : PreOrder sends_only.
Proof.
  split.
  - intros w. repeat split; [reflexivity|]. exists []. by rewrite app_nil_r.
  - intros w1 w2 w3 (Hc1 & Hl1 & Hs1 & t1 & Ht1 & Hn1) (Hc2 & Hl2 & Hs2 & t2 & Ht2 & Hn2).
    repeat split; [congruence..|by etrans|].
    exists (t1 ++ t2). rewrite Ht2, Ht1, app_assoc, forallb_app, Hn1, Hn2. done.
Qed.

#[local] Instance evolves_preorder : PreOrder evolves.
Proof.
  split.
  - intros w. repeat split; reflexivity.
  - intros w1 w2 w3 (Hc1 & Hl1 & Hs1) (Hc2 & Hl2 & Hs2).
    repeat split; [congruence..|by etrans].
Qed.

Lemma extends_ages s s' : extends s s' -> ages s s'.
Proof. intros (Hr & Hl & _). split; auto. Qed.

Lemma sends_only_evolves w w' : sends_only w w' -> evolves w w'.
Proof.
  intros (Hc & _ & Hs & _). unfold evolves, registry, tracked. rewrite Hc.
  repeat split. eapply Forall2_impl; [done|]. apply extends_ages.
Qed.

Section Combinators.
Context (R : World -> World -> Prop) `{!PreOrder R}.

Lemma preserves_ret {A} (a : A) : preserves R (mret a).
Proof. intros w. simpl. reflexivity. Qed.

Lemma preserves_lift {A} (r : Outcome A) : preserves R (lift r).
Proof. intros w. simpl. reflexivity. Qed.

Lemma preserves_gets {A} (f : World -> A) : preserves R (gets f).
Proof. intros w. simpl. reflexivity. Qed.

Lemma preserves_bind {A B} (c : M A) (k : A -> M B) :
  preserves R c -> (forall a, preserves R (k a)) -> preserves R (c ≫= k).
Proof.
  intros Hc Hk w. unfold mbind, M_bind. specialize (Hc w).
  destruct (c w) as [[a|e] w1]; simpl in *; [|done].
  etrans; [done|]. apply Hk.
Qed.

Lemma preserves_try_catch {A} (c : M A) (h : Thrown -> M A) :
  preserves R c -> (forall e, preserves R (h e)) -> preserves R (try_catch c h).
Proof.
  intros Hc Hh w. unfold try_catch. specialize (Hc w).
  destruct (c w) as [[a|e] w1]; simpl in *; [done|].
  etrans; [done|]. apply Hh.
Qed.

Lemma preserves_forEach {A} (l : list A) (visit : A -> M unit) :
  (forall x, preserves R (visit x)) -> preserves R (forEach l visit).
Proof.
  intros Hv. induction l as [|x l IH]; simpl.
  - apply preserves_ret.
  - apply preserves_bind; auto.
Qed.

Lemma preserves_times (n : nat) (c : M unit) :
  preserves R c -> preserves R (times n c).
Proof.
  intros Hc. induction n as [|n IH]; simpl.
  - apply preserves_ret.
  - apply preserves_bind; auto.
Qed.

End Combinators.

Create HintDb preserve.

Ltac preserve :=
  repeat first
    [ solve [eauto with preserve]
    | apply preserves_ret; solve [typeclasses eauto]
    | apply preserves_lift; solve [typeclasses eauto]
    | apply preserves_gets; solve [typeclasses eauto]
    | apply preserves_bind; [typeclasses eauto | | intros ?]
    | apply preserves_try_catch; [typeclasses eauto | | intros ?]
    | apply preserves_forEach; [typeclasses eauto | intros ?]
    | apply preserves_times; [typeclasses eauto | ]
    | match goal with
      | |- preserves _ (match ?x with _ => _ end) => destruct x
      end ].

Section Handlers.
Context {container : Container}.

Lemma extends_send data s : extends s (WS.send data s).
Proof.
  unfold WS.send. destruct (WS.readyState s) eqn:E; [|reflexivity..].
  repeat split; simpl; eauto.
Qed.

Lemma ages_close code reason s : ages s (WS.close code reason s).
Proof.
  unfold WS.close. destruct (WS.readyState s) eqn:E; [|reflexivity..].
  split; simpl; auto.
Qed.

Lemma sends_only_emit e : is_close e = false -> preserves sends_only (emit e).
Proof.
  intros He w. repeat split; simpl; [reflexivity|].
  exists [e]. simpl. by rewrite He.
Qed.

Lemma sends_only_send ws data : preserves sends_only (WebSocketController.send ws data).
Proof.
  intros w. repeat split; simpl.
  - apply Forall2_alter_r; [reflexivity|]. intros x y _ _ Hxy.
    etrans; [done|]. apply extends_send.
  - by exists [ws_send ws data].
Qed.

Lemma sends_only_logger_error msg :
  preserves sends_only (WebSocketController.logger_error msg).
Proof. by apply sends_only_emit. Qed.

Lemma sends_only_logger_warn msg :
  preserves sends_only (WebSocketController.logger_warn msg).
Proof.
  unfold WebSocketController.logger_warn.
  destruct WebSocketController.logging_enabled; [by apply sends_only_emit|].
  apply preserves_ret; apply _.
Qed.

Lemma sends_only_logger_log msg :
  preserves sends_only (WebSocketController.logger_log msg).
Proof.
  unfold WebSocketController.logger_log.
  destruct WebSocketController.logging_enabled; [by apply sends_only_emit|].
  apply preserves_ret; apply _.
Qed.

Hint Resolve sends_only_send sends_only_logger_error sends_only_logger_warn
  sends_only_logger_log : preserve.

Lemma sends_only_broadcast message :
  preserves sends_only (WebSocketController.broadcastMessage message).
Proof. unfold WebSocketController.broadcastMessage, WebSocketController.readyState. preserve. Qed.

Lemma sends_only_invoke call f message :
  is_close (call message) = false ->
  preserves sends_only (WebSocketController.invoke call f message).
Proof. intros H. unfold WebSocketController.invoke. preserve. by apply sends_only_emit. Qed.

Hint Resolve sends_only_broadcast : preserve.
Hint Extern 1 (preserves sends_only (WebSocketController.invoke _ _ _)) =>
  apply sends_only_invoke; reflexivity : preserve.

Lemma sends_only_dispatch message :
  preserves sends_only (WebSocketController.dispatch message).
Proof. unfold WebSocketController.dispatch. preserve. Qed.

Hint Resolve sends_only_dispatch : preserve.

Lemma sends_only_process ws message :
  preserves sends_only (WebSocketController.process ws message).
Proof. unfold WebSocketController.process. preserve. Qed.

End Handlers.

Section Evolution.
Context {container : Container}.

Lemma evolves_sends_only {A} (c : M A) : preserves sends_only c -> preserves evolves c.
Proof. intros H w. apply sends_only_evolves, H. Qed.

Lemma evolves_emit e : preserves evolves (emit e).
Proof. intros w. repeat split; simpl; reflexivity. Qed.

Lemma evolves_close_socket ws code reason :
  preserves evolves (WebSocketController.close_socket ws code reason).
Proof.
  intros w. repeat split; simpl.
  apply Forall2_alter_r; [reflexivity|]. intros x y _ _ Hxy.
  etrans; [done|]. apply ages_close.
Qed.

Lemma evolves_set_wss f :
  (forall s, WS.clients (f s) = WS.clients s) ->
  preserves evolves (WebSocketController.set_wss f).
Proof. intros Hf w. repeat split; simpl; [apply Hf|reflexivity]. Qed.

Lemma evolves_set_listening b : preserves evolves (set_listening b).
Proof. intros w. repeat split; simpl; reflexivity. Qed.

Lemma evolves_set_hooks before after :
  preserves evolves (set_controller (WebSocketController.setLifecycleHooks before after)).
Proof. intros w. repeat split; simpl; reflexivity. Qed.

Lemma evolves_peer_close ws code :
  preserves evolves (set_sockets (alter (WS.close code None) ws)).
Proof.
  intros w. repeat split; simpl.
  apply Forall2_alter_r; [reflexivity|]. intros x y _ _ Hxy.
  etrans; [done|]. apply ages_close.
Qed.

Hint Resolve evolves_emit evolves_close_socket evolves_set_listening
  evolves_set_hooks evolves_peer_close : preserve.
Hint Extern 1 (preserves evolves (WebSocketController.set_wss _)) =>
  apply evolves_set_wss; reflexivity : preserve.
Hint Extern 2 (preserves evolves _) =>
  apply evolves_sends_only;
  solve [ apply sends_only_process | apply sends_only_send
        | apply sends_only_logger_error | apply sends_only_logger_warn
        | apply sends_only_logger_log ] : preserve.

Lemma evolves_message_listener ws user data :
  preserves evolves (WebSocketController.message_listener ws user data).
Proof.
  unfold WebSocketController.message_listener, WebSocketController.reject. preserve.
Qed.

Lemma evolves_error_listener error :
  preserves evolves (WebSocketController.error_listener error).
Proof. unfold WebSocketController.error_listener. preserve. Qed.

Lemma evolves_emitClose : preserves evolves WebSocketController.emitClose.
Proof. unfold WebSocketController.emitClose. preserve. Qed.

Hint Resolve evolves_emitClose : preserve.

Lemma evolves_nextTick : preserves evolves WebSocketController.nextTick.
Proof. unfold WebSocketController.nextTick. preserve. Qed.

Lemma evolves_close : preserves evolves WebSocketController.close.
Proof.
  unfold WebSocketController.close, WebSocketController.close_server. preserve.
Qed.

Hint Resolve evolves_close : preserve.

Lemma evolves_start : preserves evolves WebSocketManager.start.
Proof. unfold WebSocketManager.start. preserve. Qed.

Lemma evolves_stop : preserves evolves WebSocketManager.stop.
Proof. unfold WebSocketManager.stop. preserve. Qed.

Lemma evolves_run handler w : preserves evolves handler -> evolves w (run handler w).
Proof. intros H. unfold run. etrans; [apply H|apply evolves_nextTick]. Qed.

End Evolution.

Arguments dq : simpl never.
Arguments stringify : simpl never.
Arguments WebSocketController.error_payload : simpl never.
Arguments String.append : simpl never.

Ltac unfold_m :=
  unfold WebSocketController.send, WebSocketController.close_socket,
    WebSocketController.on, WebSocketController.logger_error,
    WebSocketController.logger_warn, WebSocketController.logger_log,
    WebSocketController.set_wss, WebSocketController.readyState,
    set_sockets, set_controller, set_listening, emit, modify, gets, lift, try_catch,
    mbind, M_bind, mret, M_ret.

Section Upgrade.
Context {container : Container}.

Lemma alter_snoc {A} (f : A -> A) (l : list A) (x : A) :
  alter f (length l) (l ++ [x]) = l ++ [f x].
Proof.
  replace (length l) with (length l + 0) by lia. by rewrite alter_app_r.
Qed.

Lemma handleUpgrade_run url now w :
  WS.state (wss (controller w)) = WS.RUNNING ->
  let ws := length (sockets w) in
  let token := WebSocketController.extractToken url in
  let username := if truthy_opt token
                  then token ≫= (fun t => auth_verifyToken authService t now)
                  else None in
  let c := controller w in
  let srv := WS.mkServer (set_add ws (WS.clients (wss c))) WS.RUNNING
               (WS.close_callbacks (wss c)) in
  WebSocketController.handleUpgrade url now w =
    (Return tt,
     if truthy_opt token && negb (truthy_opt username) then
       mkWorld
         (sockets w ++
            [WS.mkSocket WS.CLOSING
               [WS.Text (WebSocketController.error_payload "Authentication Failed");
                WS.Close (Some 1008%Z) (Some "Authentication Failed")] None])
         (mkController srv (clients c) (beforeSend c) (afterSend c) (onMessage c))
         (listening w)
         (trace w ++
            [ws_send ws (WebSocketController.error_payload "Authentication Failed");
             ws_close ws (Some 1008%Z) (Some "Authentication Failed")] ++
            if WebSocketController.logging_enabled
            then [console_warn "[WS WARN]: WebSocket connection closed due to failed authentication."]
            else [])
     else
       let user := if truthy_opt username then default "Anonymous" username
                   else "Anonymous" in
       mkWorld
         (sockets w ++ [WS.mkSocket WS.OPEN [] (Some user)])
         (mkController srv (map_set ws user (clients c)) (beforeSend c) (afterSend c)
            (onMessage c))
         (listening w)
         (trace w ++
            if WebSocketController.logging_enabled
            then [console_log ("[WS LOG]: User connected: " +:+ user)]
            else [])).
Proof.
  intros Hstate. unfold WebSocketController.handleUpgrade. unfold_m. simpl.
  rewrite Hstate. simpl.
  unfold WebSocketController.onConnection.
  destruct (truthy_opt _ && negb _); unfold_m;
    destruct WebSocketController.logging_enabled; simpl;
    rewrite ?alter_snoc, ?Hstate, <- ?app_assoc, ?app_nil_r; reflexivity.
Qed.
End Upgrade.

(** ** Well-formedness is an invariant *)

Section WellFormed.
Context {container : Container}.

Lemma WF_init : WF init.
Proof.
  split; simpl.
  - constructor.
  - intros ws. split; [by intros ?%elem_of_nil|]. by intros (s & Hs & _).
  - intros ws user. unfold registry. simpl. done.
  - intros ws s. done.
Qed.

Lemma ages_live s s' : ages s s' -> live s <-> live s'.
Proof. unfold live. intros [_ [->|[-> ->]]]; [done|]. split; done. Qed.

Lemma WF_evolves w w' : WF w -> evolves w w' -> WF w'.
Proof.
  intros [Hnd Htr Hreg Hop] (Hr & Ht & Hs). split.
  - by rewrite Ht.
  - intros ws. rewrite Ht, Htr. split.
    + intros (s & Hws & Hl). destruct (Forall2_lookup_l _ _ _ _ _ Hs Hws) as (s' & ? & Ha).
      exists s'. split; [done|]. by apply (ages_live _ _ Ha).
    + intros (s' & Hws & Hl). destruct (Forall2_lookup_r _ _ _ _ _ Hs Hws) as (s & ? & Ha).
      exists s. split; [done|]. by apply (ages_live _ _ Ha).
  - intros ws user. rewrite Hr. intros Hg.
    destruct (Hreg _ _ Hg) as (s & Hws & Hl & Hu).
    destruct (Forall2_lookup_l _ _ _ _ _ Hs Hws) as (s' & ? & Ha).
    exists s'. split_and!; [done|by apply (ages_live _ _ Ha)|].
    destruct Ha as [-> _]. done.
  - intros ws s' Hws Hopen. rewrite Hr.
    destruct (Forall2_lookup_r _ _ _ _ _ Hs Hws) as (s & Hws0 & [_ Ha]).
    apply (Hop ws s Hws0). destruct Ha as [Ha|[_ Ha]]; congruence.
Qed.

Lemma fresh_untracked w : WF w -> length (sockets w) ∉ tracked w.
Proof.
  intros [_ Htr _ _] Hin. apply Htr in Hin as (s & Hs & _).
  apply lookup_lt_Some in Hs. lia.
Qed.

Lemma fresh_unregistered w : WF w -> map_get (length (sockets w)) (registry w) = None.
Proof.
  intros [_ _ Hreg _]. destruct (map_get _ _) as [u|] eqn:E; [|done].
  destruct (Hreg _ _ E) as (s & Hs & _). apply lookup_lt_Some in Hs. lia.
Qed.

Lemma lookup_snoc {A} (l : list A) (x y : A) i :
  (l ++ [x]) !! i = Some y <-> l !! i = Some y \/ (i = length l /\ y = x).
Proof.
  destruct (decide (i < length l)) as [Hlt|Hge].
  - rewrite lookup_app_l by done. split; [auto|]. intros [?|[? _]]; [done|lia].
  - rewrite lookup_app_r by lia. split.
    + intros H. right. destruct (i - length l) as [|n] eqn:E; simpl in H; [|done].
      split; [lia|congruence].
    + intros [H|[-> ->]].
      * apply lookup_lt_Some in H. lia.
      * by rewrite Nat.sub_diag.
Qed.

Lemma WF_handleUpgrade url now w :
  WF w -> WF (WebSocketController.handleUpgrade url now w).2.
Proof.
  intros Hwf. destruct (WS.state (wss (controller w))) eqn:Hstate.
  2,3: unfold WebSocketController.handleUpgrade; unfold_m; simpl; by rewrite Hstate.
  rewrite (handleUpgrade_run url now w Hstate). simpl.
  pose proof (fresh_untracked w Hwf) as Hfresh.
  pose proof (fresh_unregistered w Hwf) as Hunreg.
  destruct Hwf as [Hnd Htr Hreg Hop].
  destruct (truthy_opt _ && negb _); split; unfold tracked, registry in *; simpl.
  - by apply NoDup_set_add.
  - intros ws. rewrite elem_of_set_add, Htr. setoid_rewrite lookup_snoc.
    split.
    + intros [->|(s & ? & ?)]; eauto 6. eexists. split; [right; done|]. done.
    + intros (s & [?|[-> ->]] & ?); eauto.
  - intros ws user Hg. destruct (Hreg _ _ Hg) as (s & ? & ? & ?).
    exists s. rewrite lookup_snoc. auto.
  - intros ws s [Hs|[-> ->]]%lookup_snoc Ho; [eauto|done].
  - by apply NoDup_set_add.
  - intros ws. rewrite elem_of_set_add, Htr. setoid_rewrite lookup_snoc.
    split.
    + intros [->|(s & ? & ?)]; eauto 6. eexists. split; [right; done|]. done.
    + intros (s & [?|[-> ->]] & ?); eauto.
  - intros ws user. rewrite map_get_set. case_decide as Hws.
    + intros [= <-]. subst ws. eexists. rewrite lookup_snoc. split; [right; done|].
      split; done.
    + intros Hg. destruct (Hreg _ _ Hg) as (s & ? & ? & ?).
      exists s. rewrite lookup_snoc. auto.
  - intros ws s [Hs|[-> ->]]%lookup_snoc Ho; rewrite map_get_set; case_decide;
      try done; eauto.
Qed.

Lemma socket_closed_run ws s w :
  sockets w !! ws = Some s ->
  let c := controller w in
  WebSocketController.socket_closed ws w =
    (Return tt,
     mkWorld (alter WS.closed ws (sockets w))
       (mkController
          (WS.mkServer (set_delete ws (WS.clients (wss c))) (WS.state (wss c))
             (WS.close_callbacks (wss c)))
          (if present (WS.listeners s) then map_delete ws (clients c) else clients c)
          (beforeSend c) (afterSend c) (onMessage c))
       (listening w)
       (trace w ++
          match WS.listeners s with
          | Some user =>
              if WebSocketController.logging_enabled
              then [console_log ("[WS LOG]: User disconnected: " +:+ user)]
              else []
          | None => []
          end)).
Proof.
  intros Hs. unfold WebSocketController.socket_closed. unfold_m. simpl.
  rewrite list_lookup_alter_eq, Hs. simpl.
  destruct (WS.listeners s) as [user|]; simpl.
  - unfold WebSocketController.close_listener. unfold_m.
    destruct WebSocketController.logging_enabled; simpl; by rewrite ?app_nil_r.
  - rewrite app_nil_r. by destruct w as [? [[] ? ? ? ?] ? ?].
Qed.

Lemma WF_socket_closed ws s w :
  sockets w !! ws = Some s -> WF w -> WF (WebSocketController.socket_closed ws w).2.
Proof.
  intros Hs [Hnd Htr Hreg Hop]. rewrite (socket_closed_run ws s w Hs). simpl.
  split; unfold tracked, registry in *; simpl.
  - by apply NoDup_set_delete.
  - intros x. rewrite elem_of_set_delete, Htr. split.
    + intros (Hne & s' & Hx & Hl). exists s'. by rewrite list_lookup_alter_ne.
    + intros (s' & Hx & Hl). destruct (decide (x = ws)) as [->|Hne].
      * rewrite list_lookup_alter_eq, Hs in Hx. simpl in Hx.
        injection Hx as <-. by destruct Hl.
      * rewrite list_lookup_alter_ne in Hx by done. eauto.
  - intros x user Hg.
    assert (x ≠ ws /\ map_get x (clients (controller w)) = Some user) as [Hne Hg'].
    { destruct (WS.listeners s) as [u|] eqn:Hu; simpl in Hg.
      - rewrite map_get_delete in Hg. by case_decide.
      - split; [|done]. intros ->. destruct (Hreg _ _ Hg) as (s' & ? & _ & ?).
        congruence. }
    destruct (Hreg _ _ Hg') as (s' & ? & ? & ?). exists s'.
    by rewrite list_lookup_alter_ne.
  - intros x s' Hx Ho. destruct (decide (x = ws)) as [->|Hne].
    + rewrite list_lookup_alter_eq, Hs in Hx. simpl in Hx. by injection Hx as <-.
    + rewrite list_lookup_alter_ne in Hx by done.
      destruct (WS.listeners s); simpl; [|eauto].
      rewrite map_get_delete. case_decide; [done|eauto].
Qed.

Lemma WF_run handler w :
  WF (handler w).2 -> WF (run handler w).
Proof. intros H. unfold run. eapply WF_evolves; [done|apply evolves_nextTick]. Qed.

Lemma WF_deliver e w : WF w -> WF (deliver e w).
Proof.
  intros Hwf. destruct e as [url now|ws data|ws code|ws|ws error|before after| |]; simpl.
  - destruct (listening w); [|done]. by apply WF_run, WF_handleUpgrade.
  - destruct (sockets w !! ws) as [[[] ? [user|]]|]; try done;
      apply WF_run; (eapply WF_evolves; [done|apply evolves_message_listener]).
  - apply WF_run. eapply WF_evolves; [done|apply evolves_peer_close].
  - destruct (sockets w !! ws) as [s|] eqn:Hs; [|done]. simpl.
    destruct (WS.readyState s); try done; by apply WF_run, (WF_socket_closed ws s).
  - destruct (sockets w !! ws) as [[[] ? [user|]]|]; try done;
      apply WF_run; (eapply WF_evolves; [done|apply evolves_error_listener]).
  - apply WF_run. eapply WF_evolves; [done|apply evolves_set_hooks].
  - apply WF_run. eapply WF_evolves; [done|apply evolves_start].
  - apply WF_run. eapply WF_evolves; [done|apply evolves_stop].
Qed.

Lemma reachable_WF w : reachable w -> WF w.
Proof. induction 1; [apply WF_init|by apply WF_deliver]. Qed.

Lemma reachable_deliver_all events w : reachable w -> reachable (deliver_all events w).
Proof.
  revert w. induction events as [|e events IH]; intros w Hw; simpl; [done|].
  apply IH. by constructor.
Qed.

End WellFormed.

(** ** The fan-out loop *)

Section Broadcast.
Context {container : Container}.

Lemma send_not_open data s : WS.readyState s ≠ WS.OPEN -> WS.send data s = s.
Proof. unfold WS.send. by destruct (WS.readyState s). Qed.

Lemma send_open data s :
  WS.readyState s = WS.OPEN ->
  WS.send data s = WS.mkSocket WS.OPEN (WS.outbox s ++ [WS.Text data]) (WS.listeners s).
Proof. unfold WS.send. by intros ->. Qed.

Lemma readyState_send data s : WS.readyState (WS.send data s) = WS.readyState s.
Proof. unfold WS.send. by destruct (WS.readyState s) eqn:E. Qed.

Lemma ready_alter_send data x ss c rest1 rest2 tr :
  ready (mkWorld (alter (WS.send data) x ss) rest1 rest2 tr) c
  = ready (mkWorld ss rest1 rest2 tr) c.
Proof.
  unfold ready. simpl. apply bool_decide_ext.
  rewrite list_lookup_alter. case_decide as Hx; [|done]. subst c.
  rewrite <- option_fmap_compose.
  destruct (ss !! x) as [s|]; simpl; [|done]. by rewrite readyState_send.
Qed.

Lemma alter_send_not_ready data x w :
  ready w x = false -> alter (WS.send data) x (sockets w) = sockets w.
Proof.
  unfold ready. intros Hr%bool_decide_eq_false.
  apply list_eq. intros i. rewrite list_lookup_alter. case_decide as Hi; [|done].
  subst i. destruct (sockets w !! x) as [s|] eqn:E; simpl in *; [|done].
  rewrite send_not_open; [done|]. congruence.
Qed.

(** The loop of [broadcastMessage] over any list of sockets. *)
Lemma fanout_run data (l : list WebSocket) w :
  forEach l (fun client =>
    st ← WebSocketController.readyState client;
    if decide (st = Some WS.OPEN) then WebSocketController.send client data
    else mret tt) w
  = (Return tt,
     mkWorld (foldl (fun ss c => alter (WS.send data) c ss) (sockets w) l)
       (controller w) (listening w)
       (trace w ++ ((fun c => ws_send c data) <$> filter (fun c => ready w c) l))).
Proof.
  revert w. induction l as [|x l IH]; intros w; simpl.
  - rewrite app_nil_r. by destruct w.
  - unfold mbind at 1. unfold M_bind.
    unfold mbind at 1. unfold M_bind, WebSocketController.readyState, gets. simpl.
    rewrite filter_cons. case_decide as Hst.
    + assert (ready w x = true) as Hr by (by apply bool_decide_eq_true).
      unfold_m. simpl. rewrite IH. simpl. rewrite Hr. simpl.
      rewrite <- app_assoc. simpl.
      match goal with
      | |- context [filter ?P l] =>
          assert (filter P l = filter (fun c => ready w c) l) as ->; [|done]
      end.
      apply list_filter_iff. intros c. destruct w. simpl.
      by rewrite ready_alter_send.
    + assert (ready w x = false) as Hr by (by apply bool_decide_eq_false).
      unfold_m. simpl. rewrite IH. rewrite Hr. simpl.
      by rewrite alter_send_not_ready.
Qed.

Lemma fanout_lookup data (l : list WebSocket) (ss : list WS.Socket) i :
  NoDup l ->
  foldl (fun ss c => alter (WS.send data) c ss) ss l !! i
  = (if decide (i ∈ l) then WS.send data else id) <$> ss !! i.
Proof.
  intros Hnd. revert ss. induction Hnd as [|x l Hx Hnd IH]; intros ss; simpl.
  - by rewrite option_fmap_id.
  - rewrite IH, list_lookup_alter. destruct (decide (x = i)) as [->|Hne].
    + rewrite (decide_False (P := i ∈ l)) by done.
      rewrite (decide_True (P := i ∈ i :: l)) by left.
      by rewrite option_fmap_id.
    + destruct (decide (i ∈ l)) as [Hin|Hnin].
      * by rewrite decide_True by (by right).
      * rewrite decide_False; [done|]. intros [?|?]%elem_of_cons; done.
Qed.

Lemma fanout_length data (l : list WebSocket) (ss : list WS.Socket) :
  length (foldl (fun ss c => alter (WS.send data) c ss) ss l) = length ss.
Proof. revert ss. induction l as [|x l IH]; intros ss; simpl; [done|]. by rewrite IH, length_alter. Qed.

Lemma broadcastMessage_run message w :
  WebSocketController.broadcastMessage message w
  = (Return tt,
     mkWorld
       (foldl (fun ss c => alter (WS.send (stringify message)) c ss) (sockets w) (tracked w))
       (controller w) (listening w)
       (trace w ++
          ((fun c => ws_send c (stringify message)) <$> filter (fun c => ready w c) (tracked w)) ++
          if WebSocketController.logging_enabled
          then [console_log ("[WS LOG]: Broadcasted message from " +:+
                               template (member "sender" message))]
          else [])).
Proof.
  unfold WebSocketController.broadcastMessage.
  unfold mbind at 1. unfold M_bind, gets.
  unfold mbind at 1. unfold M_bind. rewrite fanout_run.
  unfold WebSocketController.logger_log.
  destruct WebSocketController.logging_enabled; unfold_m; simpl.
  - by rewrite <- app_assoc.
  - by rewrite app_nil_r.
Qed.

End Broadcast.

Lemma ready_open {container : Container} w ws :
  ready w ws = true <-> exists s, sockets w !! ws = Some s /\ WS.readyState s = WS.OPEN.
Proof.
  unfold ready. rewrite bool_decide_eq_true. destruct (sockets w !! ws) as [s|]; simpl.
  - split; [intros [= ?]; eauto|]. by intros (? & [= <-] & ->).
  - split; [done|]. by intros (? & ? & _).
Qed.

(** C5. In a reachable world the fan-out pass writes the serialized message
    to exactly the registry entries whose connection is open: each of them
    gets the text appended to what it was sent, every other socket is left
    as it was, the pass never throws, and the writes it issues are those and
    no others. *)
Theorem broadcast_fanout {container : Container} (message : JsValue) (w : World) :
  reachable w ->
  let result := WebSocketController.broadcastMessage message w in
  let w' := result.2 in
  result.1 = Return tt /\
  (forall ws s, sockets w !! ws = Some s ->
     sockets w' !! ws =
       Some (if decide (is_Some (map_get ws (registry w)) /\ WS.readyState s = WS.OPEN)
             then WS.mkSocket WS.OPEN (WS.outbox s ++ [WS.Text (stringify message)])
                    (WS.listeners s)
             else s)) /\
  length (sockets w') = length (sockets w) /\
  controller w' = controller w /\
  (forall ws data,
     ws_send ws data ∈ drop (length (trace w)) (trace w') <->
     data = stringify message /\ is_Some (map_get ws (registry w)) /\ ready w ws = true).
Proof.
  intros [Hnd Htr Hreg Hop]%reachable_WF. rewrite broadcastMessage_run. simpl.
  split_and!; [done| |apply fanout_length|done|].
  - intros ws s Hs. rewrite fanout_lookup, Hs by done. simpl. f_equal.
    destruct (decide (WS.readyState s = WS.OPEN)) as [Ho|Hno].
    + rewrite (decide_True (P := ws ∈ tracked w)).
      2: { apply Htr. exists s. split; [done|]. unfold live. congruence. }
      rewrite decide_True by eauto. by apply send_open.
    + rewrite (decide_False (P := _ /\ _)) by tauto.
      case_decide; [by apply send_not_open|done].
  - intros ws data. rewrite drop_app_length, elem_of_app, list_elem_of_fmap. split.
    + intros [(c & [= -> ->] & [Hr Hin]%list_elem_of_filter)|Hlog].
      * apply Is_true_true in Hr. split_and!; [done| |done].
        apply ready_open in Hr as (s & Hs & Ho). eauto.
      * destruct WebSocketController.logging_enabled;
          [by apply list_elem_of_singleton in Hlog|by apply elem_of_nil in Hlog].
    + intros (-> & _ & Hr). left. exists ws. split; [done|].
      apply list_elem_of_filter. split; [by apply Is_true_true|].
      apply ready_open in Hr as (s & Hs & Ho). apply Htr. exists s.
      split; [done|]. unfold live. congruence.
Qed.

(** ** The tick after a handler touches the server only *)

#[local] Instance server_only_preorder : PreOrder server_only.
Proof.
  split.
  - intros w. by repeat split.
  - intros w1 w2 w3 (? & ? & ? & ? & ? & ? & ?) (? & ? & ? & ? & ? & ? & ?).
    repeat split; congruence.
Qed.

Section Tick.
Context {container : Container}.

Lemma server_only_logger_warn msg :
  preserves server_only (WebSocketController.logger_warn msg).
Proof.
  intros w. unfold WebSocketController.logger_warn.
  by destruct WebSocketController.logging_enabled.
Qed.

Lemma server_only_nextTick : preserves server_only WebSocketController.nextTick.
Proof.
  assert (preserves server_only WebSocketController.emitClose) as Hemit.
  { unfold WebSocketController.emitClose.
    apply preserves_bind; [apply _|apply preserves_gets; apply _|intros n].
    apply preserves_bind; [apply _|done|intros _].
    apply preserves_times; [apply _|apply server_only_logger_warn]. }
  unfold WebSocketController.nextTick.
  apply preserves_bind; [apply _|apply preserves_gets; apply _|intros s].
  destruct (WS.state s), (WS.clients s), (WS.close_callbacks s);
    first [apply Hemit | apply preserves_ret; apply _].
Qed.

Lemma run_sockets handler w : sockets (run handler w) = sockets (handler w).2.
Proof. unfold run. apply server_only_nextTick. Qed.

Lemma run_registry handler w : registry (run handler w) = registry (handler w).2.
Proof. unfold run. apply server_only_nextTick. Qed.

Lemma run_tracked handler w : tracked (run handler w) = tracked (handler w).2.
Proof. unfold run. apply server_only_nextTick. Qed.

End Tick.

(** ** The message listener *)

Arguments WebSocketController.broadcastMessage : simpl never.

Section Listener.
Context {container : Container}.

Lemma dispatch_handler_run h message w :
  onMessage (controller w) = Some h ->
  WebSocketController.dispatch message w
  = (finish (h message), add_trace [call_onMessage message] w).
Proof.
  intros Hh. unfold WebSocketController.dispatch, WebSocketController.invoke.
  unfold_m. simpl. rewrite Hh. by destruct (h message).
Qed.

Lemma dispatch_default_run message w :
  onMessage (controller w) = None ->
  WebSocketController.dispatch message w
  = let w1 := add_trace (calls call_beforeSend (beforeSend (controller w)) message) w in
    match pre_outcome w message with
    | Throw e => (Throw e, w1)
    | Return message1 =>
        let wb := (WebSocketController.broadcastMessage message1 w1).2 in
        match afterSend (controller w) with
        | None => (Return tt, wb)
        | Some h => (finish (h message1), add_trace [call_afterSend message1] wb)
        end
    end.
Proof.
  intros Hh.
  unfold WebSocketController.dispatch, WebSocketController.invoke, pre_outcome, calls.
  unfold_m. simpl. rewrite Hh.
  destruct (beforeSend (controller w)) as [h|]; simpl.
  - destruct (h message) as [m1|e]; [|done].
    rewrite !broadcastMessage_run. simpl.
    destruct (afterSend (controller w)) as [h'|]; [|done]. by destruct (h' m1).
  - unfold add_trace. rewrite app_nil_r.
    replace (mkWorld (sockets w) (controller w) (listening w) (trace w)) with w
      by (by destruct w).
    rewrite !broadcastMessage_run. simpl.
    destruct (afterSend (controller w)) as [h'|]; [|done]. by destruct (h' message).
Qed.

End Listener.

(** C7. Per message, the presence of the custom handler decides the path.
    With a handler, the handler is called with the message and nothing else
    happens: no hook is called, nothing is sent.  Without one, the effects
    are, in this order: the call of the pre-hook if there is one, the writes
    and the log line of the broadcast, the call of the post-hook if there is
    one; a pre-hook that throws ends the sequence there. *)
Theorem dispatch_paths {container : Container} (message : JsValue) (w : World) :
  let result := WebSocketController.dispatch message w in
  let added := drop (length (trace w)) (trace result.2) in
  match onMessage (controller w) with
  | Some h =>
      added = [call_onMessage message] /\ sockets result.2 = sockets w /\
      result.1 = finish (h message)
  | None =>
      let pre := calls call_beforeSend (beforeSend (controller w)) message in
      match pre_outcome w message with
      | Throw e => added = pre /\ sockets result.2 = sockets w /\ result.1 = Throw e
      | Return message1 =>
          added =
            pre ++
            ((fun c => ws_send c (stringify message1)) <$>
               filter (fun c => ready w c) (tracked w)) ++
            (if WebSocketController.logging_enabled
             then [console_log ("[WS LOG]: Broadcasted message from " +:+
                                  template (member "sender" message1))]
             else []) ++
            calls call_afterSend (afterSend (controller w)) message1
      end
  end.
Proof.
  simpl. destruct (onMessage (controller w)) as [h|] eqn:Hh.
  - rewrite (dispatch_handler_run h) by done. simpl. by rewrite drop_app_length.
  - rewrite dispatch_default_run by done. simpl.
    destruct (pre_outcome w message) as [m1|e]; simpl.
    + rewrite broadcastMessage_run. unfold calls. simpl.
      destruct (afterSend (controller w)) as [h'|]; simpl;
        rewrite <- ?app_assoc, drop_app_length; [done|].
      by rewrite !app_nil_r.
    + by rewrite drop_app_length.
Qed.

Section Failures.
Context {container : Container}.

Lemma reject_run ws e w :
  WebSocketController.reject ws e w
  = (Return tt,
     mkWorld
       (alter (WS.close None None)  ws
          (alter (WS.send (WebSocketController.error_payload "Invalid JSON format")) ws
             (sockets w)))
       (controller w) (listening w)
       (trace w ++
          [console_error ("[WS ERROR]: Error parsing message: " +:+ error_message e);
           ws_send ws (WebSocketController.error_payload "Invalid JSON format");
           ws_close ws None None])).
Proof.
  unfold WebSocketController.reject. unfold_m. simpl. by rewrite <- !app_assoc.
Qed.

Lemma deliver_message_open ws out user data w :
  sockets w !! ws = Some (WS.mkSocket WS.OPEN out (Some user)) ->
  deliver (Message ws data) w = run (WebSocketController.message_listener ws user data) w.
Proof. intros Hs. simpl. by rewrite Hs. Qed.

End Failures.

Lemma invalid_json_payload :
  WebSocketController.error_payload "Invalid JSON format" = dq "{'error':'Invalid JSON format'}".
Proof. reflexivity. Qed.

Lemma internal_error_payload :
  WebSocketController.error_payload "Internal server error"
  = dq "{'error':'Internal server error'}".
Proof. reflexivity. Qed.

Lemma authentication_failed_payload :
  WebSocketController.error_payload "Authentication Failed"
  = dq "{'error':'Authentication Failed'}".
Proof. reflexivity. Qed.

(** C3. A frame that fails to decode: the listener logs the error, sends
    the invalid-format payload to the sender and closes that socket, in
    this order, and returns; the socket of the sender has the payload and
    the close frame and is closing, the other sockets and the registry are
    as before, and once its transport is gone the connection is off the
    registry. *)
Theorem decode_failure {container : Container} (w : World) (ws : WebSocket)
    (out : list WS.Frame) (user data : string) (e : JsError) :
  sockets w !! ws = Some (WS.mkSocket WS.OPEN out (Some user)) ->
  WebSocketController.decode data user = Throw e ->
  let result := WebSocketController.message_listener ws user data w in
  let w' := deliver (Message ws data) w in
  result.1 = Return tt /\
  trace result.2 =
    trace w ++
      [console_error ("[WS ERROR]: Error parsing message: " +:+ error_message e);
       ws_send ws (dq "{'error':'Invalid JSON format'}");
       ws_close ws None None] /\
  sockets w' !! ws =
    Some (WS.mkSocket WS.CLOSING
            (out ++ [WS.Text (dq "{'error':'Invalid JSON format'}"); WS.Close None None])
            (Some user)) /\
  (forall ws', ws' ≠ ws -> sockets w' !! ws' = sockets w !! ws') /\
  registry w' = registry w /\ tracked w' = tracked w /\
  map_get ws (registry (deliver (Closed ws) w')) = None.
Proof.
  intros Hs Hd. cbv zeta.
  assert (sockets (deliver (Message ws data) w) !! ws =
    Some (WS.mkSocket WS.CLOSING
            (out ++ [WS.Text (dq "{'error':'Invalid JSON format'}"); WS.Close None None])
            (Some user))) as Hws.
  { rewrite (deliver_message_open ws out user) by done.
    rewrite run_sockets. unfold WebSocketController.message_listener. rewrite Hd, reject_run.
    simpl. rewrite !list_lookup_alter_eq, Hs. simpl.
    unfold WS.close, WS.send. simpl. by rewrite <- app_assoc, invalid_json_payload. }
  split_and!.
  - unfold WebSocketController.message_listener. by rewrite Hd, reject_run.
  - unfold WebSocketController.message_listener.
    by rewrite Hd, reject_run, invalid_json_payload.
  - done.
  - intros ws' Hne. rewrite (deliver_message_open ws out user) by done.
    rewrite run_sockets. unfold WebSocketController.message_listener. rewrite Hd, reject_run.
    simpl. by rewrite !list_lookup_alter_ne.
  - rewrite (deliver_message_open ws out user) by done. rewrite run_registry.
    unfold WebSocketController.message_listener. by rewrite Hd, reject_run.
  - rewrite (deliver_message_open ws out user) by done. rewrite run_tracked.
    unfold WebSocketController.message_listener. by rewrite Hd, reject_run.
  - set (w' := deliver (Message ws data) w) in *. cbn [deliver]. rewrite Hws. simpl.
    rewrite run_registry, (socket_closed_run ws _ w' Hws). unfold registry. simpl.
    rewrite map_get_delete. by rewrite decide_True.
Qed.

(** C6, as the code has it.  The listener checks no more than that the
    frame parses as JSON to a value that can take a [sender] property: it is
    rejected exactly when [JSON.parse] throws or yields a primitive or
    [null], and then nothing is dispatched.  Every JSON object is accepted
    with whatever fields it has, its [sender] overwritten and its [content]
    untouched, and handed to the dispatch. *)
Theorem envelope_check {container : Container} (data user : string) :
  ((exists e, WebSocketController.decode data user = Throw e) <->
   (exists e, JS.parse data = Throw e) \/
   (exists v, JS.parse data = Return v /\ primitive v = true)) /\
  (forall props, JS.parse data = Return (JObject props) ->
     WebSocketController.decode data user
     = Return (JObject (set_prop "sender" (JString user) props)) /\
     get_prop "sender" (set_prop "sender" (JString user) props) = Some (JString user) /\
     get_prop "content" (set_prop "sender" (JString user) props)
     = get_prop "content" props) /\
  (forall ws w,
     match WebSocketController.decode data user with
     | Throw e =>
         WebSocketController.message_listener ws user data w
         = WebSocketController.reject ws e w /\
         drop (length (trace w)) (trace (WebSocketController.reject ws e w).2)
         = [console_error ("[WS ERROR]: Error parsing message: " +:+ error_message e);
            ws_send ws (dq "{'error':'Invalid JSON format'}");
            ws_close ws None None]
     | Return message =>
         WebSocketController.message_listener ws user data w
         = WebSocketController.process ws message w
     end).
Proof.
  split_and!.
  - unfold WebSocketController.decode. destruct (JS.parse data) as [v|e0]; split.
    + intros [e He]. right. exists v. split; [done|]. by destruct v.
    + intros [[e He]|(v' & [= <-] & Hp)]; [done|]. destruct v; try done; simpl; eauto.
    + eauto.
    + eauto.
  - intros props Hp. unfold WebSocketController.decode. rewrite Hp. simpl.
    split; [done|]. by rewrite !get_set_prop.
  - intros ws w. unfold WebSocketController.message_listener.
    destruct (WebSocketController.decode data user) as [m|e]; [done|].
    split; [done|]. rewrite reject_run. simpl.
    by rewrite drop_app_length, invalid_json_payload.
Qed.

(** X21. A message whose dispatch throws a value whose message can be
    read (an [Error], or any value other than [null] and [undefined] on
    which reading [message] and converting it to a string does not throw):
    the listener catches it, logs that text and sends the internal-error
    payload to the sender; it closes nothing (every socket keeps its state,
    no close is issued, the controller is unchanged).  The sender stays open
    and registered with the payload as its last frame, and the next frame
    on the same connection is handed to the listener again. *)
Theorem processing_failure {container : Container} (w w1 : World) (ws : WebSocket)
    (out : list WS.Frame) (user data : string) (message : JsValue) (thrown : Thrown)
    (text : string) :
  sockets w !! ws = Some (WS.mkSocket WS.OPEN out (Some user)) ->
  WebSocketController.decode data user = Return message ->
  WebSocketController.dispatch message w = (Throw thrown, w1) ->
  message_text thrown = Return text ->
  let result := WebSocketController.message_listener ws user data w in
  let w' := deliver (Message ws data) w in
  result.1 = Return tt /\
  trace result.2 =
    trace w1 ++
      [console_error ("[WS ERROR]: Error processing message: " +:+ text);
       ws_send ws (dq "{'error':'Internal server error'}")] /\
  sends_only w result.2 /\
  (exists more,
     sockets w' !! ws =
       Some (WS.mkSocket WS.OPEN
               (out ++ more ++ [WS.Text (dq "{'error':'Internal server error'}")])
               (Some user))) /\
  registry w' = registry w /\
  (forall data2,
     deliver (Message ws data2) w'
     = run (WebSocketController.message_listener ws user data2) w').
Proof.
  intros Hs Hd Hthrow Htext. cbv zeta.
  assert (WebSocketController.message_listener ws user data w
    = (Return tt,
       mkWorld
         (alter (WS.send (WebSocketController.error_payload "Internal server error")) ws
            (sockets w1))
         (controller w1) (listening w1)
         (trace w1 ++
            [console_error ("[WS ERROR]: Error processing message: " +:+ text);
             ws_send ws (WebSocketController.error_payload "Internal server error")])))
    as Hrun.
  { unfold WebSocketController.message_listener. rewrite Hd.
    unfold WebSocketController.process, try_catch. rewrite Hthrow.
    unfold_m. rewrite Htext. simpl. by rewrite <- app_assoc. }
  pose proof (sends_only_dispatch message w) as Hsends. rewrite Hthrow in Hsends.
  simpl in Hsends. destruct Hsends as (Hc & _ & Hss & _).
  destruct (Forall2_lookup_l _ _ _ _ _ Hss Hs) as ([r1 o1 l1] & Hs1 & Hr & Hl & more & Ho).
  simpl in Hr, Hl, Ho. subst r1 l1 o1.
  assert (sockets (deliver (Message ws data) w) !! ws
    = Some (WS.mkSocket WS.OPEN
              (out ++ more ++ [WS.Text (dq "{'error':'Internal server error'}")])
              (Some user))) as Hws.
  { rewrite (deliver_message_open ws out user) by done.
    rewrite run_sockets, Hrun. simpl. rewrite list_lookup_alter_eq, Hs1. simpl.
    unfold WS.send. simpl. by rewrite <- app_assoc, internal_error_payload. }
  split_and!.
  - by rewrite Hrun.
  - by rewrite Hrun, internal_error_payload.
  - unfold WebSocketController.message_listener. rewrite Hd.
    apply sends_only_process.
  - eauto.
  - rewrite (deliver_message_open ws out user) by done.
    rewrite run_registry, Hrun. unfold registry. simpl. by rewrite Hc.
  - intros data2. eapply deliver_message_open, Hws.
Qed.

Section Delivery.
Context {container : Container}.

Lemma deliver_message_live ws s user data w :
  sockets w !! ws = Some s -> live s -> WS.listeners s = Some user ->
  deliver (Message ws data) w = run (WebSocketController.message_listener ws user data) w.
Proof.
  intros Hs Hl Hu. simpl. rewrite Hs. destruct s as [[] o l]; simpl in *; subst; done.
Qed.

Lemma broadcast_open_entry message peer s w :
  WF w -> sockets w !! peer = Some s -> WS.readyState s = WS.OPEN ->
  sockets (WebSocketController.broadcastMessage message w).2 !! peer
  = Some (WS.mkSocket WS.OPEN (WS.outbox s ++ [WS.Text (stringify message)])
            (WS.listeners s)).
Proof.
  intros [Hnd Htr _ _] Hs Ho. rewrite broadcastMessage_run. simpl.
  rewrite fanout_lookup, Hs by done. simpl. rewrite decide_True.
  - by rewrite send_open.
  - apply Htr. exists s. split; [done|]. unfold live. congruence.
Qed.

Lemma WF_add_trace t w : WF w -> WF (add_trace t w).
Proof. intros [? ? ? ?]. by split. Qed.

Lemma sends_only_add_trace t w :
  forallb (fun e => negb (is_close e)) t = true -> sends_only w (add_trace t w).
Proof. intros Ht. repeat split; simpl; [reflexivity|eauto]. Qed.

(** Without a handler and with a pre-hook that returns the message as it
    got it, what follows the broadcast only sends and logs. *)
Lemma process_after_broadcast ws message w :
  onMessage (controller w) = None ->
  pre_outcome w message = Return message ->
  sends_only
    (WebSocketController.broadcastMessage message
       (add_trace (calls call_beforeSend (beforeSend (controller w)) message) w)).2
    (WebSocketController.process ws message w).2.
Proof.
  intros Hh Hpre. unfold WebSocketController.process, try_catch.
  rewrite dispatch_default_run by done. cbv zeta. rewrite Hpre.
  set (wb := (WebSocketController.broadcastMessage message _).2).
  destruct (afterSend (controller w)) as [h|]; [|reflexivity].
  destruct (h message) as [m'|e]; cbn [finish].
  - by apply sends_only_add_trace.
  - etrans; [by apply (sends_only_add_trace [call_afterSend message])|].
    assert (preserves sends_only
              (text ← lift (message_text e);
               WebSocketController.logger_error ("Error processing message: " +:+ text) ;;
               WebSocketController.send ws
                 (WebSocketController.error_payload "Internal server error"))) as H.
    { apply preserves_bind; [apply _|apply preserves_lift; apply _|intros text].
      apply preserves_bind; [apply _|apply sends_only_logger_error|intros _].
      apply sends_only_send. }
    apply H.
Qed.

End Delivery.


(** ** The upgrade gate *)

Section Gate.
Context {container : Container}.

(** A socket that exists and is not registered is not registered later:
    only the socket made by an upgrade is ever added. *)
Lemma unregistered_stays e w ws :
  ws < length (sockets w) -> map_get ws (registry w) = None ->
  ws < length (sockets (deliver e w)) /\ map_get ws (registry (deliver e w)) = None.
Proof.
  intros Hlt Hnone.
  assert (forall handler, preserves evolves handler ->
    ws < length (sockets (run handler w)) /\ map_get ws (registry (run handler w)) = None)
    as Hev.
  { intros handler H. destruct (evolves_run handler w H) as (Hr & _ & Hs).
    rewrite Hr. apply Forall2_length in Hs. split; [lia|done]. }
  destruct e as [url now|ws0 data|ws0 code|ws0|ws0 error|before after| |]; simpl.
  - destruct (listening w); [|done]. rewrite run_sockets, run_registry.
    destruct (WS.state (wss (controller w))) eqn:Hstate.
    2,3: unfold WebSocketController.handleUpgrade; unfold_m; simpl; by rewrite Hstate.
    rewrite (handleUpgrade_run url now w Hstate). simpl.
    destruct (truthy_opt _ && negb _); unfold registry; simpl;
      rewrite length_app; simpl; (split; [lia|]); [done|].
    rewrite map_get_set. case_decide; [lia|done].
  - destruct (sockets w !! ws0) as [[[] ? [u|]]|]; try done;
      apply Hev, evolves_message_listener.
  - apply Hev, evolves_peer_close.
  - destruct (sockets w !! ws0) as [s|] eqn:Hs; [|done]. simpl.
    destruct (WS.readyState s); try done;
      rewrite run_sockets, run_registry, (socket_closed_run ws0 s w Hs);
      unfold registry; simpl; rewrite length_alter; (split; [done|]);
      destruct (WS.listeners s); simpl; try done;
      rewrite map_get_delete; by case_decide.
  - destruct (sockets w !! ws0) as [[[] ? [u|]]|]; try done;
      apply Hev, evolves_error_listener.
  - apply Hev, evolves_set_hooks.
  - apply Hev, evolves_start.
  - apply Hev, evolves_stop.
Qed.

Lemma unregistered_forever events w ws :
  ws < length (sockets w) -> map_get ws (registry w) = None ->
  map_get ws (registry (deliver_all events w)) = None.
Proof.
  revert w. induction events as [|e events IH]; intros w Hlt Hnone; simpl; [done|].
  destruct (unregistered_stays e w ws Hlt Hnone). by apply IH.
Qed.

End Gate.


(** ** Shutdown *)

Section Shutdown.
Context {container : Container}.

Lemma close_idem code reason s :
  WS.close code reason (WS.close code reason s) = WS.close code reason s.
Proof. unfold WS.close. by destruct (WS.readyState s) eqn:E; simpl; rewrite ?E. Qed.

Lemma sweep_run code reason (l : list (WebSocket * string)) w :
  forEach l (fun '(ws, username) => WebSocketController.close_socket ws code reason) w
  = (Return tt,
     mkWorld (foldl (fun ss p => alter (WS.close code reason) p.1 ss) (sockets w) l)
       (controller w) (listening w)
       (trace w ++ ((fun p => ws_close p.1 code reason) <$> l))).
Proof.
  revert w. induction l as [|[ws u] l IH]; intros w; simpl.
  - rewrite app_nil_r. by destruct w.
  - unfold mbind at 1. unfold M_bind. unfold_m. simpl. rewrite IH. simpl.
    by rewrite <- app_assoc.
Qed.

Lemma sweep_lookup code reason (l : list (WebSocket * string)) (ss : list WS.Socket) i :
  foldl (fun ss p => alter (WS.close code reason) p.1 ss) ss l !! i
  = (if decide (i ∈ l.*1) then WS.close code reason else id) <$> ss !! i.
Proof.
  revert ss. induction l as [|[ws u] l IH]; intros ss.
  - simpl. by rewrite option_fmap_id.
  - rewrite fmap_cons. cbn [foldl fst]. rewrite IH, list_lookup_alter.
    destruct (decide (ws = i)) as [->|Hne].
    + rewrite (decide_True (P := i ∈ i :: l.*1)) by left.
      destruct (ss !! i) as [s|]; simpl; [|by case_decide].
      case_decide; simpl; [by rewrite close_idem|done].
    + destruct (decide (i ∈ l.*1)) as [Hin|Hnin].
      * by rewrite decide_True by (by right).
      * rewrite decide_False; [done|]. intros [?|?]%elem_of_cons; done.
Qed.

Lemma close_run w :
  let c := controller w in
  WebSocketController.close w
  = (Return tt,
     mkWorld
       (foldl (fun ss p => alter (WS.close (Some 1001%Z) (Some "Server shutting down")) p.1 ss)
          (sockets w) (registry w))
       (mkController
          (WS.mkServer (WS.clients (wss c))
             match WS.state (wss c) with
             | WS.RUNNING => WS.SERVER_CLOSING
             | st => st
             end
             (S (WS.close_callbacks (wss c))))
          (clients c) (beforeSend c) (afterSend c) (onMessage c))
       (listening w)
       (trace w ++
          ((fun p => ws_close p.1 (Some 1001%Z) (Some "Server shutting down")) <$> registry w)
          ++ [wss_close])).
Proof.
  unfold WebSocketController.close. unfold mbind at 1. unfold M_bind, gets.
  unfold mbind at 1. unfold M_bind. rewrite sweep_run.
  unfold WebSocketController.close_server. unfold_m. simpl. by rewrite <- app_assoc.
Qed.

Lemma closed_keeps_outbox k i s w :
  sockets w !! i = Some s ->
  exists s2, sockets (deliver (Closed k) w) !! i = Some s2 /\ WS.outbox s2 = WS.outbox s.
Proof.
  intros Hi. simpl. destruct (sockets w !! k) as [sk|] eqn:Hk; simpl; [|eauto].
  destruct (WS.readyState sk); eauto;
    rewrite run_sockets, (socket_closed_run k sk w Hk); simpl;
    rewrite list_lookup_alter; (case_decide; [subst; rewrite Hi|]); simpl; eauto.
Qed.

Lemma deliver_all_cons e events w :
  deliver_all (e :: events) w = deliver_all events (deliver e w).
Proof. reflexivity. Qed.

Lemma closed_all_keeps_outbox (l : list WebSocket) i s w :
  sockets w !! i = Some s ->
  exists s2, sockets (deliver_all (Closed <$> l) w) !! i = Some s2 /\
             WS.outbox s2 = WS.outbox s.
Proof.
  revert s w. induction l as [|k l IH]; intros s w Hi; [simpl; eauto|].
  rewrite fmap_cons, deliver_all_cons.
  destruct (closed_keeps_outbox k i s w Hi) as (s1 & Hs1 & Ho1).
  destruct (IH s1 _ Hs1) as (s2 & Hs2 & Ho2). exists s2. split; [done|congruence].
Qed.

(** After the ['close'] event of a socket, it is off the registry and no
    other socket came onto it. *)
Lemma closed_registry k k' w :
  WF w -> is_Some (map_get k' (registry (deliver (Closed k) w))) ->
  k' ≠ k /\ is_Some (map_get k' (registry w)).
Proof.
  intros Hw. simpl.
  assert (forall s, sockets w !! k = Some s -> live s -> WS.listeners s = None ->
          is_Some (map_get k' (registry w)) -> k' ≠ k) as Hnone.
  { intros s Hs _ Hl [u Hu] ->. destruct (wf_registered w Hw _ _ Hu) as (s' & ? & _ & ?).
    congruence. }
  assert (forall s, sockets w !! k = Some s -> live s ->
          is_Some (map_get k' (registry (run (WebSocketController.socket_closed k) w))) ->
          k' ≠ k /\ is_Some (map_get k' (registry w))) as Hlive.
  { intros s Hs Hl. rewrite run_registry, (socket_closed_run k s w Hs).
    unfold registry at 1. simpl. destruct (WS.listeners s) eqn:Hu; simpl.
    - rewrite map_get_delete. case_decide; [by intros []|done].
    - intros H. split; [|done]. by eapply Hnone. }
  destruct (sockets w !! k) as [s|] eqn:Hs; simpl.
  - destruct (WS.readyState s) eqn:Hr.
    + apply (Hlive s); [done|]. unfold live. congruence.
    + apply (Hlive s); [done|]. unfold live. congruence.
    + intros [u Hu]. split; [|eauto]. intros ->.
      destruct (wf_registered w Hw _ _ Hu) as (s' & ? & Hl & _).
      unfold live in Hl. congruence.
  - intros [u Hu]. split; [|eauto]. intros ->.
    destruct (wf_registered w Hw _ _ Hu) as (s' & ? & _). congruence.
Qed.

Lemma registry_drained (l : list WebSocket) w :
  WF w -> (forall k, is_Some (map_get k (registry w)) -> k ∈ l) ->
  registry (deliver_all (Closed <$> l) w) = [].
Proof.
  revert w. induction l as [|k l IH]; intros w Hw Hl;
    [simpl|rewrite fmap_cons, deliver_all_cons].
  - apply map_get_None_nil. intros k. destruct (map_get k (registry w)) eqn:E; [|done].
    exfalso. eapply elem_of_nil, Hl. eauto.
  - apply IH; [by apply WF_deliver|]. intros k' Hk'.
    destruct (closed_registry k k' w Hw Hk') as [Hne Hk].
    apply Hl in Hk. apply elem_of_cons in Hk as [?|?]; done.
Qed.

End Shutdown.

(** C9. [close()] issues [close(1001, "Server shutting down")] on every
    registered connection and closes the server after them.  After [stop()]
    every registered connection that was open has the close frame with code
    1001 as its last frame and is closing; once the transports of the
    registered connections are gone, those frames are what the peers were
    sent last and the registry is empty. *)
Theorem shutdown {container : Container} (w : World) :
  reachable w ->
  let reason := Some "Server shutting down" in
  let result := WebSocketController.close w in
  let stopped := deliver Stop w in
  let final := deliver_all (Closed <$> (registry w).*1) stopped in
  result.1 = Return tt /\
  trace result.2 =
    trace w ++ ((fun p => ws_close p.1 (Some 1001%Z) reason) <$> registry w) ++ [wss_close] /\
  WS.state (wss (controller result.2)) ≠ WS.RUNNING /\
  (forall ws user s,
     map_get ws (registry w) = Some user ->
     sockets w !! ws = Some s -> WS.readyState s = WS.OPEN ->
     sockets stopped !! ws =
       Some (WS.mkSocket WS.CLOSING (WS.outbox s ++ [WS.Close (Some 1001%Z) reason])
               (WS.listeners s)) /\
     exists s', sockets final !! ws = Some s' /\
                WS.outbox s' = WS.outbox s ++ [WS.Close (Some 1001%Z) reason]) /\
  registry final = [].
Proof.
  intros Hreach reason result stopped final.
  pose proof (close_run w) as Hrun. cbv zeta in Hrun.
  assert (sockets stopped = sockets result.2 /\ registry stopped = registry w)
    as [Hsock Hregy].
  { subst stopped result. cbn [deliver]. rewrite run_sockets, run_registry.
    unfold WebSocketManager.stop. unfold mbind at 1 3. unfold M_bind.
    rewrite Hrun. by unfold_m. }
  split_and!.
  - subst result. by rewrite Hrun.
  - subst result. by rewrite Hrun.
  - subst result. rewrite Hrun. simpl. by destruct (WS.state (wss (controller w))).
  - intros ws user s Hreg Hs Ho.
    assert (sockets stopped !! ws =
      Some (WS.mkSocket WS.CLOSING (WS.outbox s ++ [WS.Close (Some 1001%Z) reason])
              (WS.listeners s))) as Hstopped.
    { rewrite Hsock. subst result. rewrite Hrun. simpl. rewrite sweep_lookup, Hs. simpl.
      rewrite decide_True.
      - unfold WS.close. by rewrite Ho.
      - apply list_elem_of_fmap. exists (ws, user). split; [done|].
        by apply map_get_elem_of. }
    split; [done|].
    destruct (closed_all_keeps_outbox (registry w).*1 ws _ stopped Hstopped)
      as (s' & Hs' & Hout).
    eauto.
  - apply registry_drained.
    + apply reachable_WF. by constructor.
    + rewrite Hregy. intros k [u Hu]. apply list_elem_of_fmap. exists (k, u).
      split; [done|]. by apply map_get_elem_of.
Qed.

(** The world the manager builds is the initial world of its container. *)
Lemma manager_new_init {J : JsonWebToken} (options : WebSocketManager.Options) :
  WebSocketManager.new options = init (container := WebSocketManager.container options).
Proof. by destruct options as [? ? ? ? [b|] [a|] ?]. Qed.

Lemma two_peers_reachable : reachable (container := demo) two_peers.
Proof. apply (reachable_deliver_all (container := demo)), reachable_init. Qed.

Lemma two_peers_veto_reachable : reachable (container := vetoing) two_peers_veto.
Proof. apply (reachable_deliver_all (container := vetoing)), reachable_init. Qed.

Lemma two_peers_censor_reachable : reachable (container := censoring) two_peers_censor.
Proof. apply (reachable_deliver_all (container := censoring)), reachable_init. Qed.

Lemma three_anonymous_reachable : reachable (container := demo) three_anonymous.
Proof. apply (reachable_deliver_all (container := demo)), reachable_init. Qed.

Lemma started_reachable : reachable (container := demo) started.
Proof. apply (reachable_step (container := demo)), reachable_init. Qed.

(** *** The scenarios of the specification *)

Example scenario_forged_sender :
  WS.outbox <$> sockets (deliver (container := demo) (Message 0 forged) two_peers) !! 1
  = Some [WS.Text (dq "{'sender':'alice','content':'hi'}")].
Proof. reflexivity. Qed.

Example scenario_garbage_token :
  sockets (deliver (container := demo) (Upgrade (Some "/?token=garbage") 7) started)
  = [WS.mkSocket WS.CLOSING
       [WS.Text (dq "{'error':'Authentication Failed'}");
        WS.Close (Some 1008%Z) (Some "Authentication Failed")] None].
Proof. reflexivity. Qed.

Example scenario_not_json :
  sockets (deliver (container := demo) (Message 1 "not json") two_peers) !! 1
  = Some (WS.mkSocket WS.CLOSING
            [WS.Text (dq "{'error':'Invalid JSON format'}"); WS.Close None None]
            (Some "Anonymous")) /\
  sockets (deliver (container := demo) (Message 1 (dq "'not json'")) two_peers) !! 1
  = Some (WS.mkSocket WS.CLOSING
            [WS.Text (dq "{'error':'Invalid JSON format'}"); WS.Close None None]
            (Some "Anonymous")).
Proof. split; reflexivity. Qed.

Example scenario_stop_three :
  let final := deliver_all (container := demo) [Stop; Closed 0; Closed 1; Closed 2]
                 three_anonymous in
  WS.outbox <$> sockets final
  = [[WS.Close (Some 1001%Z) (Some "Server shutting down")];
     [WS.Close (Some 1001%Z) (Some "Server shutting down")];
     [WS.Close (Some 1001%Z) (Some "Server shutting down")]] /\
  registry final = [].
Proof. split; reflexivity. Qed.

(** *** Instances of the theorems *)




Lemma decode_failure_witness :
  sockets (deliver (container := demo) (Message 1 "not json") two_peers) !! 1
  = Some (WS.mkSocket WS.CLOSING
            ([] ++ [WS.Text (dq "{'error':'Invalid JSON format'}"); WS.Close None None])
            (Some "Anonymous")) /\
  sockets (deliver (container := demo) (Message 1 "not json") two_peers) !! 0
  = sockets two_peers !! 0.
Proof.
  destruct (decode_failure (container := demo) two_peers 1 [] "Anonymous" "not json"
              JS.syntax_error) as (_ & _ & Hsender & Hothers & _).
  - reflexivity.
  - reflexivity.
  - split; [exact Hsender|]. apply Hothers. discriminate.
Defined.

Lemma processing_failure_witness :
  exists more,
    sockets (deliver (container := vetoing) (Message 0 forged) two_peers_veto) !! 0
    = Some (WS.mkSocket WS.OPEN
              ([] ++ more ++ [WS.Text (dq "{'error':'Internal server error'}")])
              (Some "alice")).
Proof.
  destruct (processing_failure (container := vetoing) two_peers_veto
              (WebSocketController.dispatch (container := vetoing)
                 (JObject [("sender", JString "alice"); ("content", JString "hi")])
                 two_peers_veto).2
              0 [] "alice" forged
              (JObject [("sender", JString "alice"); ("content", JString "hi")])
              (thrown_error (mkError "Error" "veto")) "veto") as (_ & _ & _ & Hsender & _).
  - reflexivity.
  - reflexivity.
  - reflexivity.
  - reflexivity.
  - exact Hsender.
Defined.

(** C4.  The claim fails in the code for a hook that throws [null].  Alice
    and an anonymous peer are connected; the pre-hook throws [null]; alice
    sends a valid message.  The [catch] of the dispatch reads
    [(error as Error).message], which throws a [TypeError] on [null]:
    nothing is logged, no payload is sent to the sender, and the error
    leaves the listener. *)
Theorem processing_failure_uncaught :
  let result :=
    WebSocketController.message_listener (container := nulling) 0 "alice" forged
      two_peers_null in
  reachable (container := nulling) two_peers_null /\
  sockets two_peers_null !! 0 = Some (WS.mkSocket WS.OPEN [] (Some "alice")) /\
  WebSocketController.decode forged "alice"
  = Return (JObject [("sender", JString "alice"); ("content", JString "hi")]) /\
  result.1
  = Throw (thrown_error
             (mkError "TypeError" "Cannot read properties of null (reading 'message')")) /\
  trace result.2
  = trace two_peers_null ++
      [call_beforeSend (JObject [("sender", JString "alice"); ("content", JString "hi")])] /\
  sockets result.2 = sockets two_peers_null.
Proof.
  cbv zeta. split.
  - apply (reachable_deliver_all (container := nulling)), reachable_init.
  - repeat split.
Qed.

Lemma broadcast_fanout_witness :
  sockets (WebSocketController.broadcastMessage (container := demo) (JString "ping")
             two_peers).2 !! 1
  = Some (WS.mkSocket WS.OPEN ([] ++ [WS.Text (dq "'ping'")]) (Some "Anonymous")).
Proof.
  destruct (broadcast_fanout (container := demo) (JString "ping") two_peers)
    as (_ & Hsockets & _).
  - exact two_peers_reachable.
  - exact (Hsockets 1 (WS.mkSocket WS.OPEN [] (Some "Anonymous")) eq_refl).
Defined.

(** C6 as stated fails: a frame that is JSON but has neither [sender] nor
    [content] is not rejected; it is stamped and broadcast, and the
    connection stays open. *)
Lemma shapeless_object_accepted :
  JS.parse (dq "{'foo':1}") = Return (JObject [("foo", JNumber (JS.integer 1))]) /\
  member "sender" (JObject [("foo", JNumber (JS.integer 1))]) = None /\
  member "content" (JObject [("foo", JNumber (JS.integer 1))]) = None /\
  sockets (deliver (container := demo) (Message 1 (dq "{'foo':1}")) two_peers)
  = [WS.mkSocket WS.OPEN [WS.Text (dq "{'foo':1,'sender':'Anonymous'}")] (Some "alice");
     WS.mkSocket WS.OPEN [WS.Text (dq "{'foo':1,'sender':'Anonymous'}")]
       (Some "Anonymous")].
Proof. repeat split. Qed.

Lemma shutdown_witness :
  registry (deliver_all (container := demo) (Closed <$> (registry three_anonymous).*1)
              (deliver (container := demo) Stop three_anonymous)) = [].
Proof.
  destruct (shutdown (container := demo) three_anonymous) as (_ & _ & _ & _ & Hempty).
  - exact three_anonymous_reachable.
  - exact Hempty.
Defined.

(** * Further properties of the code *)

(** ** extractToken *)

Lemma append_cons c a b : String c a +:+ b = String c (a +:+ b).
Proof. reflexivity. Qed.

Lemma append_nil b : EmptyString +:+ b = b.
Proof. reflexivity. Qed.

Lemma append_nil_r a : a +:+ EmptyString = a.
Proof. induction a as [|c a IH]; [done|]. by rewrite append_cons, IH. Qed.

Lemma occurs_append c a b : occurs c (a +:+ b) = occurs c a || occurs c b.
Proof.
  induction a as [|c' a IH]; [done|]. rewrite append_cons. simpl.
  by rewrite IH, orb_assoc.
Qed.

Lemma split_absent sep s : occurs sep s = false -> URL.split sep s = [s].
Proof.
  induction s as [|c s IH]; simpl; [done|].
  intros [Hc Hs]%orb_false_iff. rewrite Hc, (IH Hs). done.
Qed.

Lemma split_at_first sep a b :
  occurs sep a = false ->
  URL.split sep (a +:+ String sep b) = a :: URL.split sep b.
Proof.
  induction a as [|c a IH]; intros Ha.
  - rewrite append_nil. simpl. by rewrite Ascii.eqb_refl.
  - simpl in Ha. apply orb_false_iff in Ha as [Hc Ha].
    rewrite append_cons. simpl. by rewrite Hc, (IH Ha).
Qed.

Lemma plus_to_space_absent s : occurs "+" s = false -> URL.plus_to_space s = s.
Proof.
  induction s as [|c s IH]; simpl; [done|].
  intros [Hc Hs]%orb_false_iff. by rewrite Hc, (IH Hs).
Qed.

Lemma percent_decode_absent s : occurs "%" s = false -> URL.percent_decode s = s.
Proof.
  induction s as [|c s IH]; simpl; [done|].
  intros [Hc Hs]%orb_false_iff. by rewrite Hc, (IH Hs).
Qed.

Lemma query_safe_spec t :
  query_safe t = true ->
  occurs "?" t = false /\ occurs "&" t = false /\ occurs "+" t = false /\
  occurs "%" t = false.
Proof.
  unfold query_safe. rewrite !andb_true_iff, !negb_true_iff. tauto.
Qed.

(** The token of a query that starts with [token=]: the value up to the
    next ['&'], whatever follows. *)
Lemma extractToken_first path t rest :
  occurs "?" path = false -> query_safe t = true ->
  occurs "?" rest = false ->
  rest = EmptyString \/ (exists r, rest = String "&" r) ->
  WebSocketController.extractToken (Some (path +:+ "?token=" +:+ t +:+ rest)) = Some t.
Proof.
  intros Hpath (Hq & Ha & Hp & Hc)%query_safe_spec Hrest Hshape.
  unfold WebSocketController.extractToken.
  assert (truthy (path +:+ "?token=" +:+ t +:+ rest) = true) as ->
    by (by destruct path).
  rewrite !append_cons, append_nil, split_at_first by done.
  rewrite split_absent.
  2: { simpl. by rewrite occurs_append, Hq, Hrest. }
  simpl lookup. unfold URL.URLSearchParams.
  assert (exists others,
    URL.split "&" (String "t" (String "o" (String "k" (String "e" (String "n"
      (String "=" (t +:+ rest)))))))
    = String "t" (String "o" (String "k" (String "e" (String "n" (String "=" t)))))
      :: others) as [others Hsplit].
  { destruct Hshape as [->|[r ->]].
    - exists []. rewrite append_nil_r. apply split_absent. simpl. by rewrite Ha.
    - exists (URL.split "&" r). simpl. by rewrite (split_at_first "&" t r Ha). }
  rewrite Hsplit, filter_cons_True by done. rewrite fmap_cons.
  unfold URL.decode_pair at 1. simpl.
  by rewrite (plus_to_space_absent t Hp), (percent_decode_absent t Hc).
Qed.

(** X1. [extractToken] gives [null] for a request without URL, with an
    empty URL, and with a URL that has no ['?']. *)
Theorem extractToken_without_query (path : string) :
  WebSocketController.extractToken None = None /\
  WebSocketController.extractToken (Some EmptyString) = None /\
  (occurs "?" path = false -> WebSocketController.extractToken (Some path) = None).
Proof.
  split_and!; [done|done|]. intros Hpath. unfold WebSocketController.extractToken.
  destruct (truthy path); [|done]. by rewrite split_absent.
Qed.

(** X2. A token placed first in the query comes out as it went in: for a
    path without ['?'] and a token without ['?'], ['&'], ['+'] and ['%'],
    [extractToken] of [path?token=t], followed or not by further
    parameters (a second [token] among them), is [t]. *)
Theorem extractToken_round_trip (path t rest : string) :
  occurs "?" path = false -> query_safe t = true ->
  occurs "?" rest = false ->
  rest = EmptyString \/ (exists r, rest = String "&" r) ->
  WebSocketController.extractToken (Some (path +:+ "?token=" +:+ t +:+ rest)) = Some t.
Proof. apply extractToken_first. Qed.

Lemma extractToken_round_trip_witness :
  WebSocketController.extractToken (Some ("/chat" +:+ "?token=" +:+ "abc.def" +:+ "&token=zzz"))
  = Some "abc.def".
Proof.
  apply (extractToken_round_trip "/chat" "abc.def" "&token=zzz");
    [reflexivity|reflexivity|reflexivity|].
  right. by exists "token=zzz".
Defined.

(** ** Config and the constructor of the manager *)

(** X3. Whatever options it is given, a [Config] has a port that is not 0,
    a secret and a token expiry that are not empty, and a logging flag that
    is set; an option that is given and truthy is kept, and a missing or
    falsy one takes the default (8080, ['default_secret_key'], ['1h'],
    [true]). *)
Theorem config_never_empty (options : Config.Options) :
  let c := Config.new options in
  (Config.port c ≠ 0%Z /\ Config.secretKey c ≠ EmptyString /\
   Config.tokenExpiry c ≠ EmptyString /\ is_Some (Config.enableLogging c)) /\
  (forall n, Config.opt_port options = Some n -> n ≠ 0%Z -> Config.port c = n) /\
  (forall s, Config.opt_secretKey options = Some s -> s ≠ EmptyString ->
             Config.secretKey c = s) /\
  (forall s, Config.opt_tokenExpiry options = Some s -> s ≠ EmptyString ->
             Config.tokenExpiry c = s) /\
  (Config.opt_port options = None \/ Config.opt_port options = Some 0%Z ->
   Config.port c = 8080%Z) /\
  (Config.opt_secretKey options = None \/ Config.opt_secretKey options = Some EmptyString ->
   Config.secretKey c = "default_secret_key") /\
  (Config.opt_tokenExpiry options = None \/
   Config.opt_tokenExpiry options = Some EmptyString ->
   Config.tokenExpiry c = "1h") /\
  (Config.opt_enableLogging options = None -> Config.enableLogging c = Some true).
Proof.
  destruct options as [p s e h l m]. simpl. split_and!.
  - destruct p as [n|]; simpl; [|done]. destruct (Z.eqb_spec n 0); done.
  - by destruct s as [[|? ?]|].
  - by destruct e as [[|? ?]|].
  - eauto.
  - intros n [= ->] Hn. simpl. by destruct (Z.eqb_spec n 0).
  - intros s' [= ->] Hs. by destruct s'.
  - intros s' [= ->] Hs. by destruct s'.
  - by intros [-> | ->].
  - by intros [-> | ->].
  - by intros [-> | ->].
  - by intros ->.
Qed.

(** X4. The configuration the manager builds: its own defaults (8080,
    ['default_secret'], ['1h'], logging on) are what the container holds,
    so the defaults of [Config] never apply behind a manager; the hooks and
    the handler are those of the options. *)
Theorem manager_config (options : WebSocketManager.Options) :
  Config.new (WebSocketManager.configOptions options)
  = Config.mk
      (Config.or_number (WebSocketManager.port options) 8080)
      (Config.or_string (WebSocketManager.secretKey options) "default_secret")
      (Config.or_string (WebSocketManager.tokenExpiry options) "1h")
      (Some (Config.mkHooks (WebSocketManager.beforeSend options)
               (WebSocketManager.afterSend options)))
      (Some (Config.nullish (WebSocketManager.enableLogging options) true))
      (WebSocketManager.onMessage options).
Proof.
  destruct options as [p s e l b a m]. unfold Config.new. simpl. f_equal.
  - destruct p as [n|]; simpl; [|done]. destruct (Z.eqb_spec n 0) as [->|Hn]; [done|].
    by destruct (Z.eqb_spec n 0).
  - by destruct s as [[|? ?]|].
  - by destruct e as [[|? ?]|].
Qed.

(** X5. The world a new manager starts from: no socket, no registration,
    nothing on the trace, not listening, and the hooks and the handler of
    its options installed; the second setting of the hooks in the
    constructor changes nothing. *)
Theorem manager_constructor {J : JsonWebToken} (options : WebSocketManager.Options) :
  let w := WebSocketManager.new options in
  w = init (container := WebSocketManager.container options) /\
  sockets w = [] /\ registry w = [] /\ tracked w = [] /\ trace w = [] /\
  listening w = false /\
  beforeSend (controller w) = WebSocketManager.beforeSend options /\
  afterSend (controller w) = WebSocketManager.afterSend options /\
  onMessage (controller w) = WebSocketManager.onMessage options.
Proof. by destruct options as [? ? ? ? [b|] [a|] ?]. Qed.

(** ** What every event keeps *)

#[local] Instance grows_preorder : PreOrder grows.
Proof.
  split.
  - intros s. split_and!; [done| |done]. exists []. by rewrite app_nil_r.
  - intros s1 s2 s3 (Hr1 & [m1 Ho1] & Hf1) (Hr2 & [m2 Ho2] & Hf2). split_and!.
    + lia.
    + exists (m1 ++ m2). by rewrite Ho2, Ho1, app_assoc.
    + intros Hno. rewrite Hf2, Hf1; [done|done|]. intros Ho. rewrite Ho in Hr1.
      destruct (WS.readyState s1); simpl in *; [done|lia..].
Qed.

#[local] Instance progress_preorder {container : Container} : PreOrder progress.
Proof.
  split.
  - intros w. split_and!; [|done|done|done|].
    + intros i s Hi. exists s. split; [done|reflexivity].
    + exists []. by rewrite app_nil_r.
  - intros w1 w2 w3 (Hs1 & Hg1 & Hr1 & Hl1 & t1 & Ht1 & Hq1)
      (Hs2 & Hg2 & Hr2 & Hl2 & t2 & Ht2 & Hq2).
    assert (WS.state (wss (controller w1)) ≠ WS.RUNNING ->
            WS.state (wss (controller w2)) ≠ WS.RUNNING) as Hstay.
    { intros H1 H2. rewrite H2 in Hr1.
      destruct (WS.state (wss (controller w1))); simpl in *; [done|lia..]. }
    split_and!.
    + intros i s Hi. destruct (Hs1 i s Hi) as (s' & Hi' & Hg).
      destruct (Hs2 i s' Hi') as (s'' & Hi'' & Hg'). exists s''. split; [done|by etrans].
    + intros ws u Hlt Hu. apply Hg1; [done|]. apply Hg2; [|done].
      destruct (lookup_lt_is_Some_2 (sockets w1) ws Hlt) as [s Hi].
      destruct (Hs1 ws s Hi) as (s' & Hi' & _). by apply lookup_lt_Some in Hi'.
    + lia.
    + intros H1. rewrite Hl2, Hl1; auto.
    + exists (t1 ++ t2). split; [by rewrite Ht2, Ht1, app_assoc|].
      intros Hoff. by rewrite forallb_app, Hq1, Hq2.
Qed.

Section Progress.
Context {container : Container}.

Lemma progress_emit e : is_info e = false -> preserves progress (emit e).
Proof.
  intros He w. split_and!; simpl; [|done|done|done|].
  - intros i s Hi. exists s. split; [done|reflexivity].
  - exists [e]. split; [done|]. intros _. simpl. by rewrite He.
Qed.

Lemma progress_alter f ws :
  (forall s, grows s (f s)) -> preserves progress (set_sockets (alter f ws)).
Proof.
  intros Hf w. split_and!; simpl; [| |done| |].
  - intros i s Hi. rewrite list_lookup_alter. case_decide.
    + subst. rewrite Hi. simpl. eauto.
    + exists s. split; [done|reflexivity].
  - done.
  - intros _. apply length_alter.
  - exists []. by rewrite app_nil_r.
Qed.

Lemma grows_send data s : grows s (WS.send data s).
Proof.
  unfold WS.send. destruct (WS.readyState s) eqn:E; [|reflexivity..].
  split_and!; simpl; [by rewrite E|eauto|done].
Qed.

Lemma grows_close code reason s : grows s (WS.close code reason s).
Proof.
  unfold WS.close. destruct (WS.readyState s) eqn:E; [|reflexivity..].
  split_and!; simpl; [rewrite E; simpl; lia|eauto|done].
Qed.

Lemma grows_on user s : grows s (WS.on user s).
Proof. split_and!; simpl; [done| |done]. exists []. by rewrite app_nil_r. Qed.

Lemma grows_closed s : grows s (WS.closed s).
Proof.
  split_and!; simpl; [by destruct (WS.readyState s); simpl; lia| |done].
  exists []. by rewrite app_nil_r.
Qed.

(** A change of the controller that keeps or removes registrations and
    does not set the server back. *)
Lemma progress_set_controller f :
  (forall c ws u, map_get ws (clients (f c)) = Some u -> map_get ws (clients c) = Some u) ->
  (forall c, server_rank (WS.state (wss c)) <= server_rank (WS.state (wss (f c)))) ->
  preserves progress (set_controller f).
Proof.
  intros Hreg Hrank w. split_and!; simpl; [| |apply Hrank|done|].
  - intros i s Hi. exists s. split; [done|reflexivity].
  - intros ws u _. apply Hreg.
  - exists []. by rewrite app_nil_r.
Qed.

Lemma progress_set_listening b : preserves progress (set_listening b).
Proof.
  intros w. split_and!; simpl; [|done|done|done|].
  - intros i s Hi. exists s. split; [done|reflexivity].
  - exists []. by rewrite app_nil_r.
Qed.

Lemma progress_send ws data : preserves progress (WebSocketController.send ws data).
Proof.
  unfold WebSocketController.send.
  apply preserves_bind; [apply _|by apply progress_emit|intros _].
  apply progress_alter, grows_send.
Qed.

Lemma progress_close_socket ws code reason :
  preserves progress (WebSocketController.close_socket ws code reason).
Proof.
  unfold WebSocketController.close_socket.
  apply preserves_bind; [apply _|by apply progress_emit|intros _].
  apply progress_alter, grows_close.
Qed.

Lemma progress_logger_error msg :
  preserves progress (WebSocketController.logger_error msg).
Proof. by apply progress_emit. Qed.

Lemma progress_info e :
  preserves progress
    (if WebSocketController.logging_enabled then emit e else mret tt).
Proof.
  intros w. destruct WebSocketController.logging_enabled eqn:Hlog; [|reflexivity].
  split_and!; simpl; [|done|done|done|].
  - intros i s Hi. exists s. split; [done|reflexivity].
  - exists [e]. split; [done|]. intros Hoff. congruence.
Qed.

Lemma progress_logger_warn msg :
  preserves progress (WebSocketController.logger_warn msg).
Proof. apply progress_info. Qed.

Lemma progress_logger_log msg :
  preserves progress (WebSocketController.logger_log msg).
Proof. apply progress_info. Qed.

Lemma progress_set_wss f :
  (forall s, server_rank (WS.state s) <= server_rank (WS.state (f s))) ->
  preserves progress (WebSocketController.set_wss f).
Proof.
  intros Hf. apply progress_set_controller; [done|]. intros c. simpl. apply Hf.
Qed.

End Progress.

Create HintDb progress.

#[local] Hint Resolve progress_send progress_close_socket progress_logger_error
  progress_logger_warn progress_logger_log progress_set_listening : progress.
#[local] Hint Extern 1 (preserves progress (emit _)) =>
  apply progress_emit; reflexivity : progress.
#[local] Hint Extern 1 (preserves progress (WebSocketController.invoke _ _ _)) =>
  unfold WebSocketController.invoke : progress.

Ltac progress_steps :=
  repeat first
    [ solve [eauto with progress]
    | apply preserves_ret; solve [typeclasses eauto]
    | apply preserves_lift; solve [typeclasses eauto]
    | apply preserves_gets; solve [typeclasses eauto]
    | apply preserves_bind; [typeclasses eauto | | intros ?]
    | apply preserves_try_catch; [typeclasses eauto | | intros ?]
    | apply preserves_forEach; [typeclasses eauto | intros ?]
    | apply preserves_times; [typeclasses eauto | ]
    | match goal with
      | |- preserves _ (match ?x with _ => _ end) => destruct x
      end ].

Section ProgressOfHandlers.
Context {container : Container}.

Lemma progress_message_listener ws user data :
  preserves progress (WebSocketController.message_listener ws user data).
Proof.
  unfold WebSocketController.message_listener, WebSocketController.reject,
    WebSocketController.process, WebSocketController.dispatch,
    WebSocketController.broadcastMessage, WebSocketController.invoke,
    WebSocketController.readyState.
  progress_steps.
Qed.

Lemma progress_error_listener error :
  preserves progress (WebSocketController.error_listener error).
Proof. apply progress_logger_error. Qed.

Lemma progress_emitClose : preserves progress WebSocketController.emitClose.
Proof.
  unfold WebSocketController.emitClose.
  apply preserves_bind; [apply _|apply preserves_gets; apply _|intros n].
  apply preserves_bind; [apply _| |intros _].
  - apply progress_set_wss. intros s. simpl. destruct (WS.state s); simpl; lia.
  - apply preserves_times; [apply _|apply progress_logger_warn].
Qed.

Lemma progress_nextTick : preserves progress WebSocketController.nextTick.
Proof.
  unfold WebSocketController.nextTick.
  apply preserves_bind; [apply _|apply preserves_gets; apply _|intros s].
  destruct (WS.state s), (WS.clients s), (WS.close_callbacks s);
    first [apply progress_emitClose | apply preserves_ret; apply _].
Qed.

Lemma progress_close : preserves progress WebSocketController.close.
Proof.
  unfold WebSocketController.close, WebSocketController.close_server.
  apply preserves_bind; [apply _|apply preserves_gets; apply _|intros l].
  apply preserves_bind; [apply _| |intros _].
  - apply preserves_forEach; [apply _|]. intros [ws u]. apply progress_close_socket.
  - apply preserves_bind; [apply _|by apply progress_emit|intros _].
    apply progress_set_wss. intros s. simpl. destruct (WS.state s); simpl; lia.
Qed.

Lemma progress_stop : preserves progress WebSocketManager.stop.
Proof.
  unfold WebSocketManager.stop.
  apply preserves_bind; [apply _|apply progress_close|intros _].
  apply preserves_bind; [apply _|by apply progress_emit|intros _].
  apply progress_set_listening.
Qed.

Lemma progress_start : preserves progress WebSocketManager.start.
Proof.
  unfold WebSocketManager.start.
  apply preserves_bind; [apply _|apply preserves_gets; apply _|intros busy].
  destruct busy; [apply preserves_lift; apply _|].
  destruct (WebSocketManager.valid_port _); [|apply preserves_lift; apply _].
  apply preserves_bind; [apply _|by apply progress_emit|intros _].
  apply preserves_bind; [apply _|apply progress_set_listening|intros _].
  apply progress_logger_log.
Qed.

Lemma progress_socket_closed ws : preserves progress (WebSocketController.socket_closed ws).
Proof.
  unfold WebSocketController.socket_closed, WebSocketController.close_listener.
  apply preserves_bind; [apply _|apply progress_alter, grows_closed|intros _].
  apply preserves_bind; [apply _|by apply progress_set_wss|intros _].
  apply preserves_bind; [apply _|apply preserves_gets; apply _|intros [user|]].
  - apply preserves_bind; [apply _| |intros _; apply progress_logger_log].
    apply progress_set_controller; [|done]. intros c k u. simpl.
    rewrite map_get_delete. by case_decide.
  - apply preserves_ret. apply _.
Qed.

Lemma progress_handleUpgrade url now :
  preserves progress (WebSocketController.handleUpgrade url now).
Proof.
  intros w. destruct (WS.state (wss (controller w))) eqn:Hstate.
  2,3: unfold WebSocketController.handleUpgrade; unfold_m; simpl; rewrite Hstate;
    reflexivity.
  rewrite (handleUpgrade_run url now w Hstate). cbv zeta.
  destruct (truthy_opt _ && negb _); cbn [snd]; (split_and!; simpl).
  - intros i s Hi. exists s. split; [|reflexivity]. apply lookup_app_l_Some. done.
  - done.
  - by rewrite Hstate.
  - done.
  - eexists. split; [done|]. intros Hoff. by rewrite Hoff.
  - intros i s Hi. exists s. split; [|reflexivity]. apply lookup_app_l_Some. done.
  - intros ws u Hlt. unfold registry. simpl. rewrite map_get_set.
    case_decide; [lia|done].
  - by rewrite Hstate.
  - done.
  - eexists. split; [done|]. intros Hoff. by rewrite Hoff.
Qed.

Lemma progress_run handler w :
  preserves progress handler -> progress w (run handler w).
Proof. intros H. unfold run. etrans; [apply H|apply progress_nextTick]. Qed.

Lemma progress_deliver e w : progress w (deliver e w).
Proof.
  destruct e as [url now|ws data|ws code|ws|ws error|before after| |]; simpl.
  - destruct (listening w); [|reflexivity]. apply progress_run, progress_handleUpgrade.
  - destruct (sockets w !! ws) as [[[] ? [user|]]|]; try reflexivity;
      apply progress_run, progress_message_listener.
  - apply progress_run, progress_alter, grows_close.
  - destruct (WS.readyState <$> sockets w !! ws) as [[]|]; try reflexivity;
      apply progress_run, progress_socket_closed.
  - destruct (sockets w !! ws) as [[[] ? [user|]]|]; try reflexivity;
      apply progress_run, progress_error_listener.
  - apply progress_run, progress_set_controller; [done|]. intros c. simpl. lia.
  - apply progress_run, progress_start.
  - apply progress_run, progress_stop.
Qed.

Lemma progress_deliver_all events w : progress w (deliver_all events w).
Proof.
  revert w. induction events as [|e events IH]; intros w; [reflexivity|].
  rewrite deliver_all_cons. etrans; [apply progress_deliver|apply IH].
Qed.

End ProgressOfHandlers.

(** X6. The identity of a connection is bound once: whatever events
    follow, a socket that exists is registered afterwards only under the
    identity it is registered under now (a registration can end, it is
    never created or changed for an existing socket). *)
Theorem identity_is_stable {container : Container} (events : list Event) (w : World)
    (ws : WebSocket) (u : string) :
  ws < length (sockets w) ->
  map_get ws (registry (deliver_all events w)) = Some u ->
  map_get ws (registry w) = Some u.
Proof.
  intros Hlt Hu. destruct (progress_deliver_all events w) as (_ & Hreg & _). eauto.
Qed.

Lemma identity_is_stable_witness :
  map_get 0 (registry two_peers) = Some "alice".
Proof.
  apply (identity_is_stable (container := demo) busy_run two_peers 0 "alice").
  - vm_compute. lia.
  - reflexivity.
Defined.

(** X7. No event takes anything back from a socket: it stays in the heap,
    its state never goes back (open, closing, closed), the frames it was
    sent stay in order at the front of its outbox, and once it is not open
    nothing more is written to it. *)
Theorem sockets_only_grow {container : Container} (events : list Event) (w : World)
    (i : WebSocket) (s : WS.Socket) :
  sockets w !! i = Some s ->
  exists s', sockets (deliver_all events w) !! i = Some s' /\
    ready_rank (WS.readyState s) <= ready_rank (WS.readyState s') /\
    (exists more, WS.outbox s' = WS.outbox s ++ more) /\
    (WS.readyState s ≠ WS.OPEN -> WS.outbox s' = WS.outbox s).
Proof.
  intros Hi. destruct (progress_deliver_all events w) as (Hs & _). apply (Hs i s Hi).
Qed.

Lemma sockets_only_grow_witness :
  exists s', sockets (deliver_all (container := demo) busy_run two_peers) !! 1 = Some s' /\
    ready_rank WS.OPEN <= ready_rank (WS.readyState s') /\
    (exists more, WS.outbox s' = [] ++ more) /\
    (WS.OPEN ≠ WS.OPEN -> WS.outbox s' = []).
Proof.
  apply (sockets_only_grow (container := demo) busy_run two_peers 1
           (WS.mkSocket WS.OPEN [] (Some "Anonymous"))).
  reflexivity.
Defined.

(** X8. With logging switched off the console gets errors only: whatever
    events are delivered, the trace is extended and none of the effects
    added is a warning or a log line. *)
Theorem silent_when_logging_off {container : Container} (events : list Event)
    (w : World) :
  WebSocketController.logging_enabled = false ->
  exists t, trace (deliver_all events w) = trace w ++ t /\
            forallb (fun e => negb (is_info e)) t = true.
Proof.
  intros Hoff. destruct (progress_deliver_all events w) as (_ & _ & _ & _ & t & Ht & Hq).
  exists t. auto.
Qed.

Lemma silent_when_logging_off_witness :
  exists t,
    trace (deliver_all (container := muted) (connect_two ++ busy_run)
             (init (container := muted)))
    = trace (init (container := muted)) ++ t /\
    forallb (fun e => negb (is_info e)) t = true.
Proof.
  apply (silent_when_logging_off (container := muted)). reflexivity.
Defined.

(** ** After stop *)

Section AfterStop.
Context {container : Container}.

Lemma stop_world w :
  (WebSocketManager.stop w).2
  = mkWorld (sockets (WebSocketController.close w).2)
      (controller (WebSocketController.close w).2) false
      (trace (WebSocketController.close w).2 ++ [server_close]).
Proof.
  pose proof (close_run w) as Hrun. cbv zeta in Hrun.
  unfold WebSocketManager.stop. unfold mbind, M_bind.
  rewrite Hrun. by unfold_m.
Qed.

Lemma stop_sockets w :
  sockets (deliver Stop w)
  = foldl (fun ss p => alter (WS.close (Some 1001%Z) (Some "Server shutting down")) p.1 ss)
      (sockets w) (registry w).
Proof. cbn [deliver]. by rewrite run_sockets, stop_world, close_run. Qed.

Lemma stop_leaves_none_open w i s :
  WF w -> sockets (deliver Stop w) !! i = Some s -> WS.readyState s ≠ WS.OPEN.
Proof.
  intros Hw. rewrite stop_sockets, sweep_lookup.
  destruct (sockets w !! i) as [s0|] eqn:Hi; simpl; [|done].
  intros [= <-]. destruct (decide (WS.readyState s0 = WS.OPEN)) as [Ho|Hno].
  - destruct (wf_open w Hw i s0 Hi Ho) as [u Hu].
    rewrite decide_True.
    + unfold WS.close. by rewrite Ho.
    + apply list_elem_of_fmap. exists (i, u). split; [done|]. by apply map_get_elem_of.
  - case_decide; [|done]. unfold WS.close.
    by destruct (WS.readyState s0) eqn:E; simpl; rewrite ?E.
Qed.

Lemma stop_not_running w :
  WS.state (wss (controller (deliver Stop w))) ≠ WS.RUNNING.
Proof.
  cbn [deliver]. unfold run.
  destruct (progress_nextTick (WebSocketManager.stop w).2) as (_ & _ & Hrank & _).
  rewrite stop_world in *. rewrite close_run in *. simpl in *.
  intros Hrun. rewrite Hrun in Hrank.
  destruct (WS.state (wss (controller w))); simpl in Hrank; lia.
Qed.

Lemma close_not_open code reason (ss : list WS.Socket) (l : list (WebSocket * string)) :
  (forall i s, ss !! i = Some s -> WS.readyState s ≠ WS.OPEN) ->
  foldl (fun ss p => alter (WS.close code reason) p.1 ss) ss l = ss.
Proof.
  intros Hno. apply list_eq. intros i. rewrite sweep_lookup.
  destruct (ss !! i) as [s|] eqn:Hi; simpl; [|done].
  case_decide; [|done]. f_equal. unfold WS.close.
  specialize (Hno i s Hi). by destruct (WS.readyState s).
Qed.

End AfterStop.

(** X9. [stop()] is final.  After it, in a reachable world and whatever
    events follow (further upgrade requests, frames, a second [start()]):
    no socket is added, no socket is open, and no connection is registered
    that was not registered when [stop()] was called. *)
Theorem stop_is_final {container : Container} (w : World) (events : list Event) :
  reachable w ->
  let w' := deliver_all events (deliver Stop w) in
  length (sockets w') = length (sockets w) /\
  (forall i s, sockets w' !! i = Some s -> WS.readyState s ≠ WS.OPEN) /\
  (forall ws u, map_get ws (registry w') = Some u -> map_get ws (registry w) = Some u).
Proof.
  intros Hreach w'. pose proof (reachable_WF w Hreach) as Hw.
  set (w1 := deliver Stop w) in *.
  assert (length (sockets w1) = length (sockets w)) as Hlen1.
  { subst w1. rewrite stop_sockets. clear. generalize (sockets w).
    induction (registry w) as [|[k u] l IH]; intros ss; simpl; [done|].
    by rewrite IH, length_alter. }
  assert (registry w1 = registry w) as Hreg1.
  { subst w1. cbn [deliver]. rewrite run_registry, stop_world, close_run. done. }
  destruct (progress_deliver_all events w1) as (Hs & Hreg & _ & Hlen & _).
  fold w' in Hs, Hreg, Hlen.
  specialize (Hlen (stop_not_running w)).
  split_and!.
  - lia.
  - intros i s Hi.
    destruct (lookup_lt_is_Some_2 (sockets w1) i) as [s1 Hi1].
    { rewrite <- Hlen. by apply lookup_lt_Some in Hi. }
    destruct (Hs i s1 Hi1) as (s' & Hi' & Hrank & _).
    assert (s' = s) as -> by congruence.
    pose proof (stop_leaves_none_open w i s1 Hw Hi1) as Hno.
    intros Ho. rewrite Ho in Hrank.
    destruct (WS.readyState s1); simpl in Hrank; [done|lia..].
  - intros ws u Hu. rewrite <- Hreg1. apply Hreg; [|done].
    assert (WF w') as Hw'.
    { apply reachable_WF, reachable_deliver_all. by constructor. }
    destruct (wf_registered w' Hw' ws u Hu) as (s & Hi & _).
    rewrite <- Hlen. by apply lookup_lt_Some in Hi.
Qed.

Lemma stop_is_final_witness :
  length (sockets (deliver_all (container := demo)
                     [Start; Upgrade (Some "/") 9; Message 0 forged]
                     (deliver (container := demo) Stop two_peers)))
  = length (sockets two_peers).
Proof.
  destruct (stop_is_final (container := demo) two_peers
              [Start; Upgrade (Some "/") 9; Message 0 forged]) as (Hlen & _).
  - exact two_peers_reachable.
  - exact Hlen.
Defined.

(** X10. A second [stop()] sends nothing more: in a reachable world the
    sockets after two calls are the sockets after one (closing an already
    closing connection is a no-op). *)
Theorem stop_twice {container : Container} (w : World) :
  reachable w ->
  sockets (deliver Stop (deliver Stop w)) = sockets (deliver Stop w).
Proof.
  intros Hw%reachable_WF. rewrite (stop_sockets (deliver Stop w)).
  apply close_not_open. intros i s. by apply stop_leaves_none_open.
Qed.

Lemma stop_twice_witness :
  sockets (deliver (container := demo) Stop (deliver (container := demo) Stop two_peers))
  = sockets (deliver (container := demo) Stop two_peers).
Proof. apply (stop_twice (container := demo) two_peers). exact two_peers_reachable. Defined.

(** ** The branches of the gate *)

Section GateBranches.
Context {container : Container}.

Lemma upgrade_run url now w :
  listening w = true ->
  let w' := deliver (Upgrade url now) w in
  let r := (WebSocketController.handleUpgrade url now w).2 in
  sockets w' = sockets r /\ registry w' = registry r /\ tracked w' = tracked r.
Proof.
  intros Hl. cbn [deliver]. rewrite Hl.
  by rewrite run_sockets, run_registry, run_tracked.
Qed.

Lemma upgrade_refused url now w token :
  listening w = true -> WS.state (wss (controller w)) = WS.RUNNING ->
  WebSocketController.extractToken url = Some token -> token ≠ EmptyString ->
  truthy_opt (auth_verifyToken authService token now) = false ->
  let w' := deliver (Upgrade url now) w in
  sockets w' =
    sockets w ++
      [WS.mkSocket WS.CLOSING
         [WS.Text (dq "{'error':'Authentication Failed'}");
          WS.Close (Some 1008%Z) (Some "Authentication Failed")] None] /\
  registry w' = registry w.
Proof.
  intros Hl Hstate Htok Hne Hfalse.
  destruct (upgrade_run url now w Hl) as (Hs & Hr & _).
  pose proof (handleUpgrade_run url now w Hstate) as Hrun. cbv zeta in *.
  rewrite Htok in Hrun.
  assert (truthy_opt (Some token) = true) as Ht by (by destruct token).
  rewrite Ht in Hrun. cbn [mbind option_bind] in Hrun. rewrite Hfalse in Hrun.
  cbn [andb negb] in Hrun. rewrite Hs, Hr, Hrun. done.
Qed.

Lemma upgrade_accepted url now w token u :
  listening w = true -> WS.state (wss (controller w)) = WS.RUNNING ->
  WebSocketController.extractToken url = Some token -> token ≠ EmptyString ->
  auth_verifyToken authService token now = Some u -> u ≠ EmptyString ->
  let ws := length (sockets w) in
  let w' := deliver (Upgrade url now) w in
  sockets w' = sockets w ++ [WS.mkSocket WS.OPEN [] (Some u)] /\
  registry w' = map_set ws u (registry w) /\
  tracked w' = set_add ws (tracked w).
Proof.
  intros Hl Hstate Htok Hne Hver Hu.
  destruct (upgrade_run url now w Hl) as (Hs & Hr & Ht).
  pose proof (handleUpgrade_run url now w Hstate) as Hrun. cbv zeta in *.
  rewrite Htok in Hrun.
  assert (truthy_opt (Some token) = true) as Htt by (by destruct token).
  rewrite Htt in Hrun. cbn [mbind option_bind] in Hrun. rewrite Hver in Hrun.
  assert (truthy_opt (Some u) = true) as Hut by (by destruct u).
  rewrite Hut in Hrun. cbn [andb negb default] in Hrun.
  rewrite Hs, Hr, Ht, Hrun. done.
Qed.

End GateBranches.

(** X11. An upgrade request with a token that verifies to a non-empty
    name, on a listening, running server: the new connection is open with
    nothing sent to it, its listeners carry that name, it is registered
    under that name and tracked by the server, and every other
    registration is as it was. *)
Theorem upgrade_accepts_verified {container : Container} (w : World)
    (url : option string) (now : Z) (token u : string) :
  listening w = true -> WS.state (wss (controller w)) = WS.RUNNING ->
  WebSocketController.extractToken url = Some token -> token ≠ EmptyString ->
  auth_verifyToken authService token now = Some u -> u ≠ EmptyString ->
  let ws := length (sockets w) in
  let w' := deliver (Upgrade url now) w in
  sockets w' = sockets w ++ [WS.mkSocket WS.OPEN [] (Some u)] /\
  map_get ws (registry w') = Some u /\
  ws ∈ tracked w' /\
  (forall k, k ≠ ws -> map_get k (registry w') = map_get k (registry w)).
Proof.
  intros Hl Hstate Htok Hne Hver Hu ws w'.
  destruct (upgrade_accepted url now w token u Hl Hstate Htok Hne Hver Hu)
    as (Hs & Hr & Ht).
  fold w' in Hs, Hr, Ht. fold ws in Hr, Ht. split_and!.
  - done.
  - rewrite Hr, map_get_set. by rewrite decide_True.
  - rewrite Ht. apply elem_of_set_add. by left.
  - intros k Hk. rewrite Hr, map_get_set. by rewrite decide_False.
Qed.

Lemma upgrade_accepts_verified_witness :
  map_get 0 (registry (deliver (container := demo)
                         (Upgrade (Some ("/?token=" +:+ alice_token)) 5) started))
  = Some "alice".
Proof.
  destruct (upgrade_accepts_verified (container := demo) started
              (Some ("/?token=" +:+ alice_token)) 5 alice_token "alice")
    as (_ & Hreg & _); [reflexivity|reflexivity|reflexivity|done|reflexivity|done|].
  exact Hreg.
Defined.

(** X12. A token that verifies to the empty name is refused like one that
    does not verify: the connection is sent the authentication-failed
    payload, closed with code 1008, and not registered. *)
Theorem empty_identity_refused {container : Container} (w : World)
    (url : option string) (now : Z) (token : string) :
  listening w = true -> WS.state (wss (controller w)) = WS.RUNNING ->
  WebSocketController.extractToken url = Some token -> token ≠ EmptyString ->
  auth_verifyToken authService token now = Some EmptyString ->
  let w' := deliver (Upgrade url now) w in
  sockets w' =
    sockets w ++
      [WS.mkSocket WS.CLOSING
         [WS.Text (dq "{'error':'Authentication Failed'}");
          WS.Close (Some 1008%Z) (Some "Authentication Failed")] None] /\
  registry w' = registry w.
Proof.
  intros Hl Hstate Htok Hne Hver.
  apply (upgrade_refused url now w token Hl Hstate Htok Hne). by rewrite Hver.
Qed.

Lemma empty_identity_refused_witness :
  registry (deliver (container := demo)
              (Upgrade (Some ("/?token=" +:+ nameless_token)) 5) started)
  = registry started.
Proof.
  destruct (empty_identity_refused (container := demo) started
              (Some ("/?token=" +:+ nameless_token)) 5 nameless_token)
    as (_ & Hreg); [reflexivity|reflexivity|reflexivity|done|reflexivity|].
  exact Hreg.
Defined.

(** X13. [generateToken] to the gate.  Behind a manager, a token issued
    for a non-empty name [u] and presented as [path?token=...] opens a
    connection registered as [u] at every time before an expiry, and is
    refused with code 1008 from the expiry on. *)
Theorem issued_token_at_gate {J : JsonWebToken} (C : JwtContract J)
    (options : WebSocketManager.Options) (u tok path : string) (t0 : Z) :
  let container := WebSocketManager.container options in
  WebSocketManager.generateToken u t0 = Return tok ->
  u ≠ EmptyString -> tok ≠ EmptyString ->
  query_safe tok = true -> occurs "?" path = false ->
  exists expiry : Z,
    forall (w : World) (now : Z),
      listening w = true -> WS.state (wss (controller w)) = WS.RUNNING ->
      let w' := deliver (Upgrade (Some (path +:+ "?token=" +:+ tok)) now) w in
      ((now < expiry)%Z ->
       sockets w' = sockets w ++ [WS.mkSocket WS.OPEN [] (Some u)] /\
       map_get (length (sockets w)) (registry w') = Some u) /\
      ((expiry <= now)%Z ->
       sockets w' =
         sockets w ++
           [WS.mkSocket WS.CLOSING
              [WS.Text (dq "{'error':'Authentication Failed'}");
               WS.Close (Some 1008%Z) (Some "Authentication Failed")] None] /\
       registry w' = registry w).
Proof.
  intros container Hsign Hu Htok Hsafe Hpath.
  assert (WebSocketController.extractToken (Some (path +:+ "?token=" +:+ tok)) = Some tok)
    as Hext.
  { pose proof (extractToken_first path tok EmptyString Hpath Hsafe eq_refl
                  (or_introl eq_refl)) as H.
    by rewrite append_nil_r in H. }
  unfold WebSocketManager.generateToken in Hsign. simpl in Hsign.
  unfold AuthService.generateToken in Hsign.
  destruct (sign_span _ _ _ _ _ Hsign) as [d Hd]. exists (t0 + d)%Z.
  intros w now Hl Hstate w'. split; intros Ht.
  - destruct (upgrade_accepted (container := container) _ now w tok u Hl Hstate Hext Htok)
      as (Hs & Hr & _); [|done|].
    { simpl. unfold AuthService.verifyToken.
      by rewrite (verify_fresh _ _ _ _ _ _ now Hsign Hd Ht). }
    fold w' in Hs, Hr. split; [done|].
    rewrite Hr, map_get_set. by rewrite decide_True.
  - apply (upgrade_refused (container := container) _ now w tok Hl Hstate Hext Htok).
    simpl. unfold AuthService.verifyToken.
    by destruct (verify_expired _ _ _ _ _ _ now Hsign Hd Ht) as [msg ->].
Qed.

Lemma issued_token_at_gate_witness :
  exists expiry : Z,
    forall (w : World) (now : Z),
      listening w = true -> WS.state (wss (controller w)) = WS.RUNNING ->
      let w' := deliver (container := demo) (Upgrade (Some ("/chat" +:+ "?token=" +:+ alice_token)) now) w in
      ((now < expiry)%Z ->
       sockets w' = sockets w ++ [WS.mkSocket WS.OPEN [] (Some "alice")] /\
       map_get (length (sockets w)) (registry w') = Some "alice") /\
      ((expiry <= now)%Z ->
       sockets w' =
         sockets w ++
           [WS.mkSocket WS.CLOSING
              [WS.Text (dq "{'error':'Authentication Failed'}");
               WS.Close (Some 1008%Z) (Some "Authentication Failed")] None] /\
       registry w' = registry w).
Proof.
  apply (issued_token_at_gate reference_contract demo_options "alice" alice_token "/chat" 3);
    [reflexivity|done|done|reflexivity|reflexivity].
Defined.

(** ** The tick is idle between events *)

Section Settled.
Context {container : Container}.

Lemma nextTick_settled w :
  settled (wss (controller w)) = true -> WebSocketController.nextTick w = (Return tt, w).
Proof.
  unfold settled, WebSocketController.nextTick. unfold_m. simpl.
  by destruct (WS.state (wss (controller w))), (WS.clients (wss (controller w))),
    (WS.close_callbacks (wss (controller w))).
Qed.

Lemma times_controller n msg w :
  controller (times n (WebSocketController.logger_warn msg) w).2 = controller w.
Proof.
  assert (forall w, exists w1,
            WebSocketController.logger_warn msg w = (Return tt, w1) /\
            controller w1 = controller w) as Hwarn.
  { intros w0. unfold WebSocketController.logger_warn.
    destruct WebSocketController.logging_enabled; eexists; by unfold_m. }
  revert w. induction n as [|n IH]; intros w; [done|].
  cbn [times]. unfold mbind, M_bind.
  destruct (Hwarn w) as (w1 & -> & <-). apply IH.
Qed.

Lemma settled_nextTick w :
  settled (wss (controller (WebSocketController.nextTick w).2)) = true.
Proof.
  assert (settled (wss (controller (WebSocketController.emitClose w).2)) = true) as Hemit.
  { unfold WebSocketController.emitClose.
    unfold mbind at 1. unfold M_bind, gets. unfold mbind at 1. unfold M_bind.
    unfold WebSocketController.set_wss, set_controller, modify. simpl.
    by rewrite times_controller. }
  destruct (settled (wss (controller w))) eqn:Hs.
  - by rewrite nextTick_settled.
  - revert Hs. unfold settled at 1.
    unfold WebSocketController.nextTick at 1. unfold mbind at 1. unfold M_bind, gets.
    cbn [fst snd].
    by destruct (WS.state (wss (controller w))), (WS.clients (wss (controller w))),
      (WS.close_callbacks (wss (controller w))).
Qed.

Lemma settled_deliver e w :
  settled (wss (controller w)) = true ->
  settled (wss (controller (deliver e w))) = true.
Proof.
  intros Hw.
  assert (forall handler, settled (wss (controller (run handler w))) = true) as Hrun
    by (intros handler; apply settled_nextTick).
  destruct e as [url now|ws data|ws code|ws|ws error|before after| |]; simpl; try apply Hrun.
  - by destruct (listening w).
  - by destruct (sockets w !! ws) as [[[] ? [user|]]|].
  - by destruct (WS.readyState <$> sockets w !! ws) as [[]|].
  - by destruct (sockets w !! ws) as [[[] ? [user|]]|].
Qed.

Lemma reachable_settled w : reachable w -> settled (wss (controller w)) = true.
Proof. induction 1; [done|by apply settled_deliver]. Qed.

(** A handler that leaves the server as it is, run in a reachable world. *)
Lemma run_settled handler w :
  reachable w -> wss (controller (handler w).2) = wss (controller w) ->
  run handler w = (handler w).2.
Proof.
  intros Hw Hsame. unfold run. rewrite nextTick_settled; [done|].
  rewrite Hsame. by apply reachable_settled.
Qed.

End Settled.

(** ** The listeners of a connection *)

(** X14. The message listener closes no other connection, and lets an
    exception out in one case only.  Whatever the frame, the hooks and the
    handler do: it returns, unless the dispatch throws a value whose message
    cannot be read ([null], [undefined]), and then what it throws is the
    error of that read; the controller (registry, tracked set, hooks,
    handler) and the listening flag are as before; every socket other than
    the sender's keeps its state and its listeners and only has frames
    appended; and the sender's socket keeps its listeners and is at most
    moved from open to closing. *)
Theorem message_never_closes_peers {container : Container} (w : World) (ws : WebSocket)
    (user data : string) :
  let result := WebSocketController.message_listener ws user data w in
  (result.1 = Return tt \/
   exists message thrown x,
     WebSocketController.decode data user = Return message /\
     (WebSocketController.dispatch message w).1 = Throw thrown /\
     message_text thrown = Throw x /\ result.1 = Throw x) /\
  (forall message thrown text,
     WebSocketController.decode data user = Return message ->
     (WebSocketController.dispatch message w).1 = Throw thrown ->
     message_text thrown = Return text -> result.1 = Return tt) /\
  controller result.2 = controller w /\ listening result.2 = listening w /\
  length (sockets result.2) = length (sockets w) /\
  (forall peer s, peer ≠ ws -> sockets w !! peer = Some s ->
     exists s', sockets result.2 !! peer = Some s' /\ extends s s') /\
  (forall s, sockets w !! ws = Some s ->
     exists s', sockets result.2 !! ws = Some s' /\ ages s s').
Proof.
  cbv zeta. unfold WebSocketController.message_listener.
  destruct (WebSocketController.decode data user) as [message|e].
  - pose proof (sends_only_process ws message w) as (Hc & Hl & Hs & _).
    split_and!; [| |done|done| | |].
    + unfold WebSocketController.process, try_catch.
      destruct (WebSocketController.dispatch message w) as [[[]|thrown] w1] eqn:Hd;
        [by left|].
      destruct (message_text thrown) as [text|x] eqn:Ht.
      * left. by unfold_m.
      * right. exists message, thrown, x.
        split_and!; [done|by rewrite Hd|done|by unfold_m].
    + intros ? thrown text [= <-] Hd Ht.
      unfold WebSocketController.process, try_catch.
      destruct (WebSocketController.dispatch message w) as [[[]|thrown'] w1]; [done|].
      simpl in Hd. injection Hd as ->. unfold_m. by rewrite Ht.
    + symmetry. by eapply Forall2_length.
    + intros peer s _ Hp. by apply (Forall2_lookup_l _ _ _ _ _ Hs Hp).
    + intros s Hp. destruct (Forall2_lookup_l _ _ _ _ _ Hs Hp) as (s' & Hs' & He).
      exists s'. split; [done|]. by apply extends_ages.
  - rewrite reject_run. simpl. split_and!; [by left|done|done|done| | |].
    + by rewrite !length_alter.
    + intros peer s Hne Hp. exists s. rewrite !list_lookup_alter_ne by done.
      split; [done|reflexivity].
    + intros s Hp. rewrite !list_lookup_alter_eq, Hp. simpl. eexists. split; [done|].
      etrans; [apply extends_ages, extends_send|apply ages_close].
Qed.

(** X15. With a custom handler the listener delivers nothing itself.  For
    a frame that decodes, on a connection whose listener is attached, in a
    reachable world: the handler is called with the message (the hooks are
    not) and the controller is as before.  When the handler returns, the
    sockets are as before.  When it throws a value whose message can be
    read, that text is logged and the only write is the internal-error
    payload to the sender.  When it throws a value whose message cannot be
    read ([null], [undefined]), nothing is logged, nothing is written, and
    the error of the read leaves the listener. *)
Theorem handler_owns_delivery {container : Container} (w : World) (ws : WebSocket)
    (s : WS.Socket) (user data : string) (message : JsValue) (h : Callback) :
  reachable w ->
  sockets w !! ws = Some s -> live s -> WS.listeners s = Some user ->
  WebSocketController.decode data user = Return message ->
  onMessage (controller w) = Some h ->
  let result := WebSocketController.message_listener ws user data w in
  let w' := deliver (Message ws data) w in
  controller w' = controller w /\
  match h message with
  | Return _ =>
      result.1 = Return tt /\
      sockets w' = sockets w /\ trace w' = trace w ++ [call_onMessage message]
  | Throw thrown =>
      match message_text thrown with
      | Return text =>
          result.1 = Return tt /\
          sockets w'
          = alter (WS.send (dq "{'error':'Internal server error'}")) ws (sockets w) /\
          trace w' =
            trace w ++
              [call_onMessage message;
               console_error ("[WS ERROR]: Error processing message: " +:+ text);
               ws_send ws (dq "{'error':'Internal server error'}")]
      | Throw x =>
          result.1 = Throw x /\
          sockets w' = sockets w /\ trace w' = trace w ++ [call_onMessage message]
      end
  end.
Proof.
  intros Hw Hs Hl Hu Hd Hh result w'.
  assert (WebSocketController.message_listener ws user data w
          = match h message with
            | Return _ => (Return tt, add_trace [call_onMessage message] w)
            | Throw thrown =>
                match message_text thrown with
                | Return text =>
                    (Return tt,
                     mkWorld
                       (alter
                          (WS.send (WebSocketController.error_payload "Internal server error"))
                          ws (sockets w))
                       (controller w) (listening w)
                       (trace w ++
                          [call_onMessage message;
                           console_error ("[WS ERROR]: Error processing message: " +:+ text);
                           ws_send ws
                             (WebSocketController.error_payload "Internal server error")]))
                | Throw x => (Throw x, add_trace [call_onMessage message] w)
                end
            end) as Hrun.
  { unfold WebSocketController.message_listener. rewrite Hd.
    unfold WebSocketController.process, try_catch.
    rewrite (dispatch_handler_run h) by done.
    destruct (h message) as [m|thrown]; cbn [finish]; [done|].
    unfold_m. destruct (message_text thrown) as [text|x]; [|done].
    simpl. by rewrite <- !app_assoc. }
  subst w' result. rewrite (deliver_message_live ws s user) by done.
  rewrite run_settled; [|done|].
  - rewrite Hrun, <- internal_error_payload.
    destruct (h message) as [m|thrown]; [done|]. by destruct (message_text thrown).
  - rewrite Hrun. destruct (h message) as [m|thrown]; [done|].
    by destruct (message_text thrown).
Qed.

Lemma handler_owns_delivery_witness :
  sockets (deliver (container := strict) (Message 0 forged) two_peers_strict)
  = alter (WS.send (dq "{'error':'Internal server error'}")) 0 (sockets two_peers_strict).
Proof.
  destruct (handler_owns_delivery (container := strict) two_peers_strict 0
              (WS.mkSocket WS.OPEN [] (Some "alice")) "alice" forged
              (JObject [("sender", JString "alice"); ("content", JString "hi")]) veto)
    as (_ & _ & Hs & _).
  - apply (reachable_deliver_all (container := strict)), reachable_init.
  - reflexivity.
  - done.
  - reflexivity.
  - reflexivity.
  - reflexivity.
  - exact Hs.
Defined.

(** X16. The error listener only logs.  An ['error'] event on a
    connection whose listeners are attached, in a reachable world, adds one
    error line to the console, also when logging is switched off, and
    changes nothing else: no socket is closed and no registration is
    removed. *)
Theorem socket_error_only_logs {container : Container} (w : World) (ws : WebSocket)
    (s : WS.Socket) (user : string) (error : JsError) :
  reachable w ->
  sockets w !! ws = Some s -> live s -> WS.listeners s = Some user ->
  deliver (SocketError ws error) w
  = add_trace [console_error ("[WS ERROR]: WebSocket error: " +:+ error_message error)] w.
Proof.
  intros Hw Hs Hl Hu.
  assert (deliver (SocketError ws error) w
          = run (WebSocketController.error_listener error) w) as ->.
  { simpl. rewrite Hs. destruct s as [[] o l]; simpl in *; subst; done. }
  by rewrite run_settled.
Qed.

Lemma socket_error_only_logs_witness :
  deliver (container := demo) (SocketError 1 (mkError "Error" "ECONNRESET")) two_peers
  = add_trace [console_error ("[WS ERROR]: WebSocket error: " +:+ "ECONNRESET")] two_peers.
Proof.
  apply (socket_error_only_logs (container := demo) two_peers 1
           (WS.mkSocket WS.OPEN [] (Some "Anonymous")) "Anonymous"
           (mkError "Error" "ECONNRESET")).
  - exact two_peers_reachable.
  - reflexivity.
  - done.
  - reflexivity.
Defined.

(** ** The registry and the close listener *)

(** X17. The registry, the set the server tracks and the sockets agree in
    every reachable world: an open connection is registered, tracked, and
    its listeners carry the name it is registered under; a registered
    connection exists, its transport is not gone, and its listeners carry
    the registered name; the server tracks each live socket once and
    nothing else. *)
Theorem registry_invariant {container : Container} (w : World) :
  reachable w ->
  (forall ws s, sockets w !! ws = Some s -> WS.readyState s = WS.OPEN ->
     ws ∈ tracked w /\
     exists user, map_get ws (registry w) = Some user /\ WS.listeners s = Some user) /\
  (forall ws user, map_get ws (registry w) = Some user ->
     exists s, sockets w !! ws = Some s /\ WS.readyState s ≠ WS.CLOSED /\
               WS.listeners s = Some user) /\
  NoDup (tracked w) /\
  (forall ws, ws ∈ tracked w <->
     exists s, sockets w !! ws = Some s /\ WS.readyState s ≠ WS.CLOSED).
Proof.
  intros [Hnd Htr Hreg Hop]%reachable_WF. split_and!; [|done|done|done].
  intros ws s Hs Ho. split.
  - apply Htr. exists s. split; [done|]. unfold live. congruence.
  - destruct (Hop ws s Hs Ho) as [user Hu]. exists user. split; [done|].
    destruct (Hreg ws user Hu) as (s' & Hs' & _ & Hl). congruence.
Qed.

Lemma registry_invariant_witness :
  NoDup (tracked two_peers).
Proof.
  destruct (registry_invariant (container := demo) two_peers) as (_ & _ & Hnd & _).
  - exact two_peers_reachable.
  - exact Hnd.
Defined.

(** X18. The ['close'] event of a connection whose transport was not yet
    gone, in a reachable world: its socket is closed with the frames it was
    sent, every other socket is untouched, it leaves the registry and the
    tracked set and nothing else does; and whatever events follow, it is
    never registered again and its socket stays closed with the same
    frames. *)
Theorem connection_closed {container : Container} (w : World) (ws : WebSocket)
    (s : WS.Socket) :
  reachable w -> sockets w !! ws = Some s -> live s ->
  let w' := deliver (Closed ws) w in
  sockets w' = alter WS.closed ws (sockets w) /\
  (forall k, map_get k (registry w')
             = if decide (k = ws) then None else map_get k (registry w)) /\
  (forall k, k ∈ tracked w' <-> k ≠ ws /\ k ∈ tracked w) /\
  (forall events,
     map_get ws (registry (deliver_all events w')) = None /\
     exists s', sockets (deliver_all events w') !! ws = Some s' /\
                WS.readyState s' = WS.CLOSED /\ WS.outbox s' = WS.outbox s).
Proof.
  intros Hreach Hs Hl w'. pose proof (reachable_WF w Hreach) as Hw.
  assert (w' = run (WebSocketController.socket_closed ws) w) as Hw'.
  { subst w'. simpl. rewrite Hs. simpl. by destruct (WS.readyState s) eqn:E. }
  assert (sockets w' = alter WS.closed ws (sockets w)) as Hsock.
  { by rewrite Hw', run_sockets, (socket_closed_run ws s w Hs). }
  assert (forall k, map_get k (registry w')
                    = if decide (k = ws) then None else map_get k (registry w)) as Hreg.
  { intros k. rewrite Hw', run_registry, (socket_closed_run ws s w Hs).
    unfold registry. simpl. destruct (WS.listeners s) as [u|] eqn:Hu; simpl.
    - apply map_get_delete.
    - case_decide as Hk; [|done]. subst k.
      destruct (map_get ws (clients (controller w))) as [u|] eqn:E; [|done].
      destruct (wf_registered w Hw ws u E) as (s' & Hs' & _ & Hl'). congruence. }
  split_and!; [done|done| |].
  - intros k. rewrite Hw', run_tracked, (socket_closed_run ws s w Hs).
    unfold tracked. simpl. apply elem_of_set_delete.
  - intros events.
    assert (sockets w' !! ws = Some (WS.closed s)) as Hclosed.
    { by rewrite Hsock, list_lookup_alter_eq, Hs. }
    split.
    + apply unregistered_forever.
      * by apply lookup_lt_Some in Hclosed.
      * rewrite Hreg. by rewrite decide_True.
    + destruct (progress_deliver_all events w') as (Hgrow & _).
      destruct (Hgrow ws _ Hclosed) as (s' & Hs' & Hrank & _ & Hout).
      exists s'. split_and!; [done| |].
      * simpl in Hrank. destruct (WS.readyState s'); simpl in Hrank; [lia|lia|done].
      * by rewrite Hout.
Qed.

Lemma connection_closed_witness :
  sockets (deliver (container := demo) (Closed 0) two_peers)
  = alter WS.closed 0 (sockets two_peers).
Proof.
  destruct (connection_closed (container := demo) two_peers 0
              (WS.mkSocket WS.OPEN [] (Some "alice"))) as (Hs & _).
  - exact two_peers_reachable.
  - reflexivity.
  - done.
  - exact Hs.
Defined.

(** ** [start] *)

(** X19. [start()] behind a manager, in a reachable world.  When the
    manager is listening already, or when the port (that of the options, or
    8080 when the option is missing or 0) is not in 0..65535, [start()]
    throws ([Error], [RangeError]) and changes nothing.  Otherwise the server
    listens on that port, the line with the port is logged unless logging
    is switched off, and sockets and controller are untouched. *)
Theorem start_listens {J : JsonWebToken} (options : WebSocketManager.Options) (w : World) :
  let container := WebSocketManager.container options in
  reachable w ->
  let result := WebSocketManager.start w in
  let w' := deliver Start w in
  let p := match WebSocketManager.port options with
           | Some n => if (n =? 0)%Z then 8080%Z else n
           | None => 8080%Z
           end in
  if listening w then
    (exists text, result.1 = Throw (thrown_error (mkError "Error" text))) /\ w' = w
  else if (0 <=? p)%Z && (p <=? 65535)%Z then
    result.1 = Return tt /\
    listening w' = true /\ sockets w' = sockets w /\ controller w' = controller w /\
    trace w' =
      trace w ++
        server_listen p ::
        match WebSocketManager.enableLogging options with
        | Some false => []
        | _ => [console_log ("[WS LOG]: Server is running on port " +:+ pretty p)]
        end
  else
    (exists text, result.1 = Throw (thrown_error (mkError "RangeError" text))) /\ w' = w.
Proof.
  intros container Hw result w' p.
  assert (Config.port config = p) as Hp.
  { subst p. simpl. destruct (WebSocketManager.port options) as [n|]; simpl; [|done].
    destruct (Z.eqb_spec n 0) as [->|Hn]; [done|]. by destruct (Z.eqb_spec n 0). }
  assert (WebSocketController.logging_enabled
          = match WebSocketManager.enableLogging options with
            | Some false => false
            | _ => true
            end) as Hlog.
  { unfold WebSocketController.logging_enabled. simpl.
    by destruct (WebSocketManager.enableLogging options) as [[]|]. }
  subst w' result. cbn [deliver].
  assert (WebSocketManager.start w
          = if listening w then
              (Throw (thrown_error WebSocketManager.already_listening), w)
            else if (0 <=? p)%Z && (p <=? 65535)%Z then
              (Return tt,
               mkWorld (sockets w) (controller w) true
                 (trace w ++
                    server_listen p ::
                    match WebSocketManager.enableLogging options with
                    | Some false => []
                    | _ => [console_log
                              ("[WS LOG]: Server is running on port " +:+ pretty p)]
                    end))
            else (Throw (thrown_error (WebSocketManager.bad_port p)), w)) as Hrun.
  { unfold WebSocketManager.start, WebSocketManager.valid_port,
      WebSocketController.logger_log.
    rewrite Hlog, Hp. unfold mbind at 1. unfold M_bind, gets.
    destruct (listening w); [done|].
    destruct ((0 <=? p)%Z && (p <=? 65535)%Z); [|done].
    destruct (WebSocketManager.enableLogging options) as [[]|]; unfold_m; simpl;
      by rewrite <- ?app_assoc. }
  rewrite run_settled; [|done|].
  - rewrite Hrun. destruct (listening w); [by eauto|].
    destruct ((0 <=? p)%Z && (p <=? 65535)%Z); [done|by eauto].
  - rewrite Hrun. destruct (listening w); [done|].
    by destruct ((0 <=? p)%Z && (p <=? 65535)%Z).
Qed.

Lemma start_listens_witness :
  listening (deliver (container := demo) Start (init (container := demo))) = true.
Proof.
  pose proof (start_listens (J := ReferenceJwt.jwt) demo_options (init (container := demo))
                (reachable_init (container := demo))) as H.
  exact (proj1 (proj2 H)).
Defined.

(** ** [generateToken] *)

(** X20. [generateToken] has no [catch]: behind a manager whose token
    expiry (the option, or ['1h'] when it is missing or empty) is not a
    time span, issuing a token throws, whatever the name and the time. *)
Theorem generateToken_propagates {J : JsonWebToken} (C : JwtContract J)
    (options : WebSocketManager.Options) (u : string) (t0 : Z) :
  let container := WebSocketManager.container options in
  jwt_timespan (Config.or_string (WebSocketManager.tokenExpiry options) "1h") = None ->
  exists e, WebSocketManager.generateToken u t0 = Throw e.
Proof.
  intros container Hspan.
  unfold WebSocketManager.generateToken. simpl. unfold AuthService.generateToken.
  assert (Config.tokenExpiry (Config.new (WebSocketManager.configOptions options))
          = Config.or_string (WebSocketManager.tokenExpiry options) "1h") as Hexp.
  { simpl. by destruct (WebSocketManager.tokenExpiry options) as [[|? ?]|]. }
  rewrite Hexp.
  destruct (jwt_sign u _ _ t0) as [tok|e] eqn:Hsign; [|eauto].
  destruct (sign_span _ _ _ _ _ Hsign) as [d Hd]. congruence.
Qed.

Lemma generateToken_propagates_witness :
  exists e,
    WebSocketManager.generateToken
      (container := WebSocketManager.container (J := ReferenceJwt.jwt) careless_options)
      "alice" 3 = Throw e.
Proof.
  apply (generateToken_propagates reference_contract careless_options "alice" 3).
  reflexivity.
Defined.
